(** * project-rpa: paginated fetch, record validation and aggregation

  A shallow embedding of the batch pipeline of the repository:

  - [src/api/client.py]: [APIClient.get] (bounded retry with exponential
    backoff) and [APIClient.get_paginated] (page loop over a shared
    parameter dict);
  - [src/models/user.py], [src/models/post.py]: the [User] and [Post] models;
  - [src/processors/data_processor.py]: [process_users],
    [calculate_metrics], [validate_users];
  - [src/utils/helpers.py]: [sort_users_by_post_count].

  Python [int] is [Z]; [str] is [string], one character per code point
  below 256; a [dict] with string keys is a [gmap string _]; a [list] is a
  [list]; a [float] is the rational number the double denotes, and the one
  float operation of the code, the division of two ints, rounds as
  [PyFloat.binary64] does.  Exceptions are the constructors of [Py.exn] and a call that may
  raise returns a [Py.result].  Effects on the outside world (requests sent,
  seconds slept, lines appended to the performance log, dicts living on the
  heap) are threaded through an explicit [World]. *)

From Stdlib Require Import ZArith QArith Qabs Qpower List String Ascii Permutation Sorted.
From Stdlib Require Import Lia Lqa.
From stdpp Require Import base option list gmap strings.

Set Default Proof Using "Type".

(* ===================================================================== *)
(** * Python primitives used by the code *)
(* ===================================================================== *)

Module Py.

(** The exception classes that the modelled code raises or lets through:
    [APIError] ([src/utils/exceptions.py]), the builtin [ValueError], and
    the builtin [OSError] that [open]/[write] raise on an I/O failure. *)
Inductive exn : Type :=
| APIError
| ValueError
| OSError.

Inductive result (A : Type) : Type :=
| Ret (a : A)
| Raise (e : exn).
Arguments Ret {A} a.
Arguments Raise {A} e.

(** [range(n)]: the integers [0 .. n-1], empty when [n <= 0]. *)
Definition range (n : Z) : list Z :=
  map Z.of_nat (seq 0 (Z.to_nat n)).

(** [str.isspace] on one character of the Latin-1 range: TAB..CR, the
    separators FS..US, SPACE, NEL and NBSP. *)
Definition isspace (c : ascii) : bool :=
  let n := nat_of_ascii c in
  ((9 <=? n)%nat && (n <=? 13)%nat)
  || ((28 <=? n)%nat && (n <=? 32)%nat)
  || (n =? 133)%nat
  || (n =? 160)%nat.

Fixpoint lstrip (s : string) : string :=
  match s with
  | EmptyString => EmptyString
  | String c s' => if isspace c then lstrip s' else s
  end.

Fixpoint rstrip (s : string) : string :=
  match s with
  | EmptyString => EmptyString
  | String c s' =>
      match rstrip s' with
      | EmptyString => if isspace c then EmptyString else String c EmptyString
      | r => String c r
      end
  end.

(** [s.strip()] with no argument. *)
Definition strip (s : string) : string := rstrip (lstrip s).

(** [len(s)] for a string. *)
Definition len (s : string) : Z := Z.of_nat (String.length s).

(** [sum(xs)] over integers. *)
Definition sum (xs : list Z) : Z := foldl Z.add 0%Z xs.

End Py.

(* ===================================================================== *)
(** * Python floats *)
(* ===================================================================== *)

Module PyFloat.

(** A float is kept as the rational number it denotes (every finite double
    is one).  Float arithmetic is the language's, not the repository's: the
    one operation the code uses, the true division [a / b] of two ints, is a
    parameter of the model.  [binary64] below is the instance Python runs. *)
Record Arith : Type := mkArith {
  truediv : Z -> Z -> Q
}.

(** Division without rounding: the number the double approximates. *)
Definition exact : Arith :=
  {| truediv := fun a b => (inject_Z a / inject_Z b)%Q |}.

(** [2 ^ e], also for a negative [e]. *)
Definition pow2 (e : Z) : Q :=
  if (0 <=? e)%Z then inject_Z (2 ^ e) else (1 # Z.to_pos (2 ^ (- e))).

(** [floor (log2 (a / b))] for positive [a] and [b]. *)
Definition quotient_log2 (a b : Z) : Z :=
  let l := (Z.log2 a - Z.log2 b)%Z in
  if (b * 2 ^ Z.max 0 l <=? a * 2 ^ Z.max 0 (- l))%Z then l else (l - 1)%Z.

(** The integer nearest to [num / den], a tie going to the even one. *)
Definition nearest_even (num den : Z) : Z :=
  let m := (num / den)%Z in
  let twice_rest := (2 * (num mod den))%Z in
  if (twice_rest <? den)%Z then m
  else if (den <? twice_rest)%Z then (m + 1)%Z
  else if Z.even m then m else (m + 1)%Z.

(** The double nearest to [a / b] for positive [a] and [b]: a significand
    of 53 bits, an exponent not below -1074 (below that the spacing of the
    subnormal doubles stays the same), ties to even. *)
Definition nearest_double (a b : Z) : Q :=
  let e := Z.max (-1074) (quotient_log2 a b - 52) in
  (inject_Z (nearest_even (a * 2 ^ Z.max 0 (- e)) (b * 2 ^ Z.max 0 e)) * pow2 e)%Q.

(** [a / b] on ints, as CPython computes it: the correctly rounded IEEE 754
    binary64 quotient.  Two cases are out of the code's reach and not
    modelled: [b = 0] (Python raises [ZeroDivisionError]; the code divides
    by the length of a non-empty list) gives 0 here, and a quotient beyond
    the largest double (Python raises [OverflowError]; a sum of lengths stays
    far below) is rounded as if the exponent had no upper bound. *)
Definition binary64_truediv (a b : Z) : Q :=
  if ((a =? 0) || (b =? 0))%Z then 0%Q
  else
    let v := nearest_double (Z.abs a) (Z.abs b) in
    if (Z.sgn a =? Z.sgn b)%Z then v else (- v)%Q.

Definition binary64 : Arith := {| truediv := binary64_truediv |}.

(** A division is monotone when, on non-negative dividends and a positive
    divisor, its result is non-negative and does not decrease with the
    dividend. *)
Definition monotone (F : Arith) : Prop :=
  forall a a' b, (0 <= a <= a')%Z -> (0 < b)%Z ->
    (0 <= truediv F a b)%Q /\ (truediv F a b <= truediv F a' b)%Q.

(** A division is accurate when, on non-negative operands, its result
    differs from the exact quotient by at most the quotient times [2 ^ -53]
    (half a unit in the last place of a normal double), or by at most
    [2 ^ -1075] (half the spacing of the subnormal doubles). *)
Definition accurate (F : Arith) : Prop :=
  forall a b, (0 <= a)%Z -> (0 < b)%Z ->
    let x := (inject_Z a / inject_Z b)%Q in
    (Qabs (truediv F a b - x) <= x * pow2 (-53))%Q
    \/ (Qabs (truediv F a b - x) <= pow2 (-1075))%Q.

(** The exponent of the unit in the last place of the double nearest to
    [a / b], and the significand at a given exponent. *)
Definition exponent (a b : Z) : Z := Z.max (-1074) (quotient_log2 a b - 52).
Definition significand (a b e : Z) : Z :=
  nearest_even (a * 2 ^ Z.max 0 (- e)) (b * 2 ^ Z.max 0 e).

(** ** The rounding of [binary64] *)

Lemma nearest_even_near (num den : Z) :
  (0 < den)%Z -> (2 * Z.abs (nearest_even num den * den - num) <= den)%Z.
Proof.
  intros Hden. unfold nearest_even.
  pose proof (Z.div_mod num den ltac:(lia)) as Hdm.
  pose proof (Z.mod_pos_bound num den Hden) as Hmod.
  destruct (Z.ltb_spec (2 * (num mod den)) den);
    [|destruct (Z.ltb_spec den (2 * (num mod den)));
      [|destruct (Z.even (num / den))]]; nia.
Qed.

Lemma nearest_even_integer (k den : Z) :
  (0 < den)%Z -> nearest_even (k * den) den = k.
Proof.
  intros Hden. unfold nearest_even.
  rewrite Z.div_mul, Z.mod_mul by lia.
  destruct (Z.ltb_spec (2 * 0) den); [reflexivity|lia].
Qed.

Lemma nearest_even_mono (num num' den : Z) :
  (0 < den)%Z -> (num <= num')%Z ->
  (nearest_even num den <= nearest_even num' den)%Z.
Proof.
  intros Hden Hle.
  destruct (Z.le_gt_cases (nearest_even num den) (nearest_even num' den)) as [H|H];
    [exact H|exfalso].
  pose proof (nearest_even_near num den Hden) as H1.
  pose proof (nearest_even_near num' den Hden) as H2.
  assert (num = num') by nia.
  subst num'. lia.
Qed.

Lemma pow2_pos (e : Z) : (0 < pow2 e)%Q.
Proof.
  unfold pow2. destruct (Z.leb_spec 0 e).
  - rewrite <- (Zlt_Qlt 0). apply Z.pow_pos_nonneg; lia.
  - reflexivity.
Qed.

Lemma pow2_Qpower (e : Z) : (pow2 e == 2 ^ e)%Q.
Proof.
  unfold pow2. destruct (Z.leb_spec 0 e) as [H|H].
  - now rewrite Zpower_Qpower.
  - assert (E1 : (2 ^ e == / inject_Z (2 ^ (- e)))%Q).
    { replace e with (- - e)%Z at 1 by lia. rewrite Qpower_opp.
      apply Qinv_comp. symmetry. apply (Zpower_Qpower 2). lia. }
    rewrite E1.
    assert (0 < 2 ^ (- e))%Z by (apply Z.pow_pos_nonneg; lia).
    destruct (2 ^ (- e))%Z as [|p|p] eqn:E; try lia.
    reflexivity.
Qed.

Lemma pow2_add (e1 e2 : Z) : (pow2 (e1 + e2) == pow2 e1 * pow2 e2)%Q.
Proof. rewrite !pow2_Qpower. apply Qpower_plus. discriminate. Qed.

Lemma pow2_ge_1 (d : Z) : (0 <= d)%Z -> (1 <= pow2 d)%Q.
Proof.
  intros H. unfold pow2. rewrite (proj2 (Z.leb_le 0 d) H).
  rewrite <- (Zle_Qle 1). assert (0 < 2 ^ d)%Z by (apply Z.pow_pos_nonneg; lia). lia.
Qed.

Lemma pow2_le (e1 e2 : Z) : (e1 <= e2)%Z -> (pow2 e1 <= pow2 e2)%Q.
Proof.
  intros H. replace e2 with (e1 + (e2 - e1))%Z by lia. rewrite pow2_add.
  pose proof (pow2_pos e1). pose proof (pow2_ge_1 (e2 - e1) ltac:(lia)). nra.
Qed.

Lemma pow2_lt_inv (e1 e2 : Z) : (pow2 e1 < pow2 e2)%Q -> (e1 < e2)%Z.
Proof.
  intros H. destruct (Z.lt_ge_cases e1 e2) as [|Hge]; [assumption|].
  apply pow2_le in Hge. lra.
Qed.

Lemma pow2_S (e : Z) : (pow2 (e + 1) == 2 * pow2 e)%Q.
Proof. rewrite pow2_add. change (pow2 1) with (inject_Z 2). ring. Qed.


Lemma pow2_inject (e : Z) : (0 <= e)%Z -> pow2 e = inject_Z (2 ^ e).
Proof. intros H. unfold pow2. now rewrite (proj2 (Z.leb_le 0 e) H). Qed.

(** Scaling the dividend by [2 ^ -e] when [e] is negative, the divisor by
    [2 ^ e] otherwise, divides the quotient by [2 ^ e]. *)
Lemma scale_num (a e : Z) :
  (inject_Z (a * 2 ^ Z.max 0 (- e)) * pow2 e
   == inject_Z a * inject_Z (2 ^ Z.max 0 e))%Q.
Proof.
  rewrite inject_Z_mult.
  destruct (Z.le_gt_cases 0 e) as [H|H].
  - rewrite Z.max_l, Z.max_r by lia. rewrite (pow2_inject e H).
    change (inject_Z (2 ^ 0)) with 1%Q. ring.
  - rewrite Z.max_r, Z.max_l by lia. rewrite <- (pow2_inject (- e)) by lia.
    change (inject_Z (2 ^ 0)) with 1%Q.
    assert (E : (pow2 (- e) * pow2 e == 1)%Q).
    { rewrite <- pow2_add. now replace (- e + e)%Z with 0%Z by lia. }
    rewrite <- Qmult_assoc, E. ring.
Qed.

Lemma cmp_pow2 (a b l : Z) :
  (b * 2 ^ Z.max 0 l <= a * 2 ^ Z.max 0 (- l))%Z
  <-> (pow2 l * inject_Z b <= inject_Z a)%Q.
Proof.
  rewrite Zle_Qle.
  pose proof (scale_num a l) as Ha.
  pose proof (pow2_pos l) as Hp.
  assert (Hk : (0 < inject_Z (2 ^ Z.max 0 l))%Q).
  { rewrite <- (Zlt_Qlt 0). apply Z.pow_pos_nonneg; lia. }
  rewrite (inject_Z_mult b).
  set (A := inject_Z a) in *. set (B := inject_Z b) in *.
  set (K := inject_Z (2 ^ Z.max 0 l)) in *.
  set (N := inject_Z (a * 2 ^ Z.max 0 (- l))) in *.
  set (P := pow2 l) in *.
  split; intros H.
  - assert (K * (P * B) <= K * A)%Q by nra. nra.
  - assert (P * (B * K) <= P * N)%Q by nra. nra.
Qed.

Lemma log2_pow2 (a : Z) :
  (0 < a)%Z ->
  (pow2 (Z.log2 a) <= inject_Z a)%Q /\ (inject_Z a < pow2 (Z.log2 a + 1))%Q.
Proof.
  intros Ha. pose proof (Z.log2_spec a Ha) as [H1 H2].
  pose proof (Z.log2_nonneg a).
  rewrite !pow2_inject by lia. rewrite <- Zle_Qle, <- Zlt_Qlt.
  split; [exact H1|]. now rewrite <- Z.add_1_r in H2.
Qed.

(** [quotient_log2 a b] is the exponent of the binade of [a / b]. *)
Lemma quotient_log2_spec (a b : Z) :
  (0 < a)%Z -> (0 < b)%Z ->
  (pow2 (quotient_log2 a b) * inject_Z b <= inject_Z a)%Q
  /\ (inject_Z a < pow2 (quotient_log2 a b + 1) * inject_Z b)%Q.
Proof.
  intros Ha Hb. unfold quotient_log2.
  pose proof (log2_pow2 a Ha) as [Ha1 Ha2].
  pose proof (log2_pow2 b Hb) as [Hb1 Hb2].
  rewrite pow2_S in Ha2, Hb2.
  set (l := (Z.log2 a - Z.log2 b)%Z).
  assert (El : (pow2 (Z.log2 a) == pow2 l * pow2 (Z.log2 b))%Q).
  { rewrite <- pow2_add. unfold l. now replace (Z.log2 a - Z.log2 b + Z.log2 b)%Z
      with (Z.log2 a) by lia. }
  pose proof (pow2_pos l) as Hl. pose proof (pow2_pos (Z.log2 b)) as Hlb.
  pose proof (cmp_pow2 a b l) as Hcmp.
  destruct (Z.leb_spec (b * 2 ^ Z.max 0 l) (a * 2 ^ Z.max 0 (- l))) as [Ht|Ht].
  - apply Hcmp in Ht. split; [exact Ht|]. rewrite pow2_S.
    set (A := inject_Z a) in *. set (B := inject_Z b) in *.
    set (P := pow2 l) in *. set (PA := pow2 (Z.log2 a)) in *.
    set (PB := pow2 (Z.log2 b)) in *. nra.
  - assert (Hn : ~ (pow2 l * inject_Z b <= inject_Z a)%Q) by (rewrite <- Hcmp; lia).
    apply Qnot_le_lt in Hn.
    replace (l - 1 + 1)%Z with l by lia. split; [|exact Hn].
    assert (E : (pow2 l == 2 * pow2 (l - 1))%Q).
    { rewrite <- pow2_S. now replace (l - 1 + 1)%Z with l by lia. }
    pose proof (pow2_pos (l - 1)) as Hl1.
    set (A := inject_Z a) in *. set (B := inject_Z b) in *.
    set (P := pow2 l) in *. set (P1 := pow2 (l - 1)) in *.
    set (PA := pow2 (Z.log2 a)) in *.
    set (PB := pow2 (Z.log2 b)) in *. nra.
Qed.

Lemma quotient_log2_mono (a a' b : Z) :
  (0 < a <= a')%Z -> (0 < b)%Z -> (quotient_log2 a b <= quotient_log2 a' b)%Z.
Proof.
  intros Ha Hb.
  pose proof (quotient_log2_spec a b ltac:(lia) Hb) as [H1 _].
  pose proof (quotient_log2_spec a' b ltac:(lia) Hb) as [_ H2].
  assert (Hab : (inject_Z a <= inject_Z a')%Q) by (rewrite <- Zle_Qle; lia).
  assert (HB : (0 < inject_Z b)%Q) by (rewrite <- (Zlt_Qlt 0); lia).
  assert (Hlt : (pow2 (quotient_log2 a b) < pow2 (quotient_log2 a' b + 1))%Q).
  { set (A := inject_Z a) in *. set (A' := inject_Z a') in *. set (B := inject_Z b) in *.
    set (P := pow2 (quotient_log2 a b)) in *.
    set (P' := pow2 (quotient_log2 a' b + 1)) in *.
    destruct (Qlt_le_dec P P') as [|Hge]; [assumption|exfalso].
    assert (P' * B <= P * B)%Q by nra. nra. }
  apply pow2_lt_inv in Hlt. lia.
Qed.



Lemma nearest_double_eq (a b : Z) :
  nearest_double a b
  = (inject_Z (significand a b (exponent a b)) * pow2 (exponent a b))%Q.
Proof. reflexivity. Qed.

Lemma scale_pos (e : Z) : (0 < 2 ^ Z.max 0 e)%Z.
Proof. apply Z.pow_pos_nonneg; lia. Qed.

Lemma significand_near (a b e : Z) :
  (0 < b)%Z ->
  (- (inject_Z b * pow2 e)
   <= 2 * (inject_Z (significand a b e) * pow2 e * inject_Z b - inject_Z a))%Q
  /\ (2 * (inject_Z (significand a b e) * pow2 e * inject_Z b - inject_Z a)
      <= inject_Z b * pow2 e)%Q.
Proof.
  intros Hb. unfold significand.
  pose proof (scale_pos e) as Hk.
  pose proof (nearest_even_near (a * 2 ^ Z.max 0 (- e)) (b * 2 ^ Z.max 0 e)
                ltac:(nia)) as Hnear.
  set (m := nearest_even _ _) in *.
  assert (H1 : (2 * (a * 2 ^ Z.max 0 (- e))
                <= 2 * (m * (b * 2 ^ Z.max 0 e)) + b * 2 ^ Z.max 0 e)%Z) by lia.
  assert (H2 : (2 * (m * (b * 2 ^ Z.max 0 e))
                <= 2 * (a * 2 ^ Z.max 0 (- e)) + b * 2 ^ Z.max 0 e)%Z) by lia.
  clear Hnear.
  rewrite Zle_Qle in H1, H2.
  rewrite ?inject_Z_plus, ?inject_Z_mult in H1, H2.
  pose proof (scale_num a e) as Hn. rewrite inject_Z_mult in Hn.
  pose proof (pow2_pos e) as Hp.
  assert (HK : (0 < inject_Z (2 ^ Z.max 0 e))%Q) by (now rewrite <- (Zlt_Qlt 0)).
  set (A := inject_Z a) in *. set (B := inject_Z b) in *.
  set (K := inject_Z (2 ^ Z.max 0 e)) in *.
  set (K' := inject_Z (2 ^ Z.max 0 (- e))) in *.
  set (P := pow2 e) in *. set (M := inject_Z m) in *.
  change (inject_Z 2) with 2%Q in *.
  assert (E1 : (K * (2 * (M * P * B - A)) == P * (2 * (M * (B * K)) - 2 * (A * K')))%Q).
  { transitivity (2 * (M * P * B * K - A * K))%Q; [ring|].
    rewrite <- Hn. ring. }
  split.
  - assert (K * - (B * P) <= K * (2 * (M * P * B - A)))%Q; [|nra].
    rewrite E1. nra.
  - assert (K * (2 * (M * P * B - A)) <= K * (B * P))%Q; [|nra].
    rewrite E1. nra.
Qed.

Lemma significand_ge (a b e k : Z) :
  (0 < b)%Z ->
  (inject_Z k * pow2 e * inject_Z b <= inject_Z a)%Q ->
  (k <= significand a b e)%Z.
Proof.
  intros Hb H. unfold significand.
  pose proof (scale_pos e) as Hk.
  rewrite <- (nearest_even_integer k (b * 2 ^ Z.max 0 e)) at 1 by nia.
  apply nearest_even_mono; [nia|].
  rewrite Zle_Qle, !inject_Z_mult.
  pose proof (scale_num a e) as Hn. rewrite inject_Z_mult in Hn.
  pose proof (pow2_pos e) as Hp.
  assert (HK : (0 < inject_Z (2 ^ Z.max 0 e))%Q) by (now rewrite <- (Zlt_Qlt 0)).
  set (A := inject_Z a) in *. set (B := inject_Z b) in *.
  set (K := inject_Z (2 ^ Z.max 0 e)) in *.
  set (K' := inject_Z (2 ^ Z.max 0 (- e))) in *.
  set (P := pow2 e) in *. set (M := inject_Z k) in *.
  assert (P * (M * (B * K)) <= P * (A * K'))%Q; [|nra].
  rewrite (Qmult_comm P (A * K')), Hn. nra.
Qed.

Lemma significand_le (a b e k : Z) :
  (0 < b)%Z ->
  (inject_Z a <= inject_Z k * pow2 e * inject_Z b)%Q ->
  (significand a b e <= k)%Z.
Proof.
  intros Hb H. unfold significand.
  pose proof (scale_pos e) as Hk.
  rewrite <- (nearest_even_integer k (b * 2 ^ Z.max 0 e)) at 1 by nia.
  apply nearest_even_mono; [nia|].
  rewrite Zle_Qle, !inject_Z_mult.
  pose proof (scale_num a e) as Hn. rewrite inject_Z_mult in Hn.
  pose proof (pow2_pos e) as Hp.
  assert (HK : (0 < inject_Z (2 ^ Z.max 0 e))%Q) by (now rewrite <- (Zlt_Qlt 0)).
  set (A := inject_Z a) in *. set (B := inject_Z b) in *.
  set (K := inject_Z (2 ^ Z.max 0 e)) in *.
  set (K' := inject_Z (2 ^ Z.max 0 (- e))) in *.
  set (P := pow2 e) in *. set (M := inject_Z k) in *.
  assert (P * (A * K') <= P * (M * (B * K)))%Q; [|nra].
  rewrite (Qmult_comm P (A * K')), Hn. nra.
Qed.

Lemma significand_mono (a a' b e : Z) :
  (0 < b)%Z -> (a <= a')%Z -> (significand a b e <= significand a' b e)%Z.
Proof.
  intros Hb Ha. unfold significand. pose proof (scale_pos e). pose proof (scale_pos (- e)).
  apply nearest_even_mono; nia.
Qed.


Lemma exponent_mono (a a' b : Z) :
  (0 < a <= a')%Z -> (0 < b)%Z -> (exponent a b <= exponent a' b)%Z.
Proof.
  intros Ha Hb. unfold exponent. pose proof (quotient_log2_mono a a' b Ha Hb). lia.
Qed.

Lemma nearest_double_nonneg (a b : Z) :
  (0 <= a)%Z -> (0 < b)%Z -> (0 <= nearest_double a b)%Q.
Proof.
  intros Ha Hb. rewrite nearest_double_eq.
  assert (H : (0 <= significand a b (exponent a b))%Z).
  { apply significand_ge; [exact Hb|].
    assert (0 <= inject_Z a)%Q by (now rewrite <- (Zle_Qle 0)).
    change (inject_Z 0) with 0%Q. nra. }
  rewrite (Zle_Qle 0) in H. change (inject_Z 0) with 0%Q in H.
  pose proof (pow2_pos (exponent a b)). nra.
Qed.

Lemma nearest_double_upper (a b : Z) :
  (0 < a)%Z -> (0 < b)%Z ->
  (nearest_double a b <= pow2 (exponent a b + 53))%Q.
Proof.
  intros Ha Hb. rewrite nearest_double_eq.
  pose proof (quotient_log2_spec a b Ha Hb) as [_ Hlt].
  assert (Hexp : (quotient_log2 a b + 1 <= exponent a b + 53)%Z)
    by (unfold exponent; lia).
  apply pow2_le in Hexp.
  assert (E53 : (pow2 (exponent a b + 53) == inject_Z (2 ^ 53) * pow2 (exponent a b))%Q).
  { rewrite Z.add_comm, pow2_add, (pow2_inject 53) by lia. reflexivity. }
  rewrite E53 in Hexp |- *.
  assert (HB : (0 < inject_Z b)%Q) by (now rewrite <- (Zlt_Qlt 0)).
  pose proof (pow2_pos (exponent a b)) as Hp.
  assert (H : (significand a b (exponent a b) <= 2 ^ 53)%Z).
  { apply significand_le; [exact Hb|].
    set (A := inject_Z a) in *. set (B := inject_Z b) in *.
    set (P := pow2 (exponent a b)) in *. set (T := inject_Z (2 ^ 53)) in *.
    set (PL := pow2 (quotient_log2 a b + 1)) in *. nra. }
  rewrite Zle_Qle in H. nra.
Qed.

Lemma nearest_double_lower (a b : Z) :
  (0 < a)%Z -> (0 < b)%Z ->
  exponent a b = (quotient_log2 a b - 52)%Z ->
  (pow2 (quotient_log2 a b) <= nearest_double a b)%Q.
Proof.
  intros Ha Hb He. rewrite nearest_double_eq.
  pose proof (quotient_log2_spec a b Ha Hb) as [Hle _].
  assert (E : (pow2 (quotient_log2 a b) == inject_Z (2 ^ 52) * pow2 (exponent a b))%Q).
  { rewrite <- (pow2_inject 52), <- pow2_add by lia. rewrite He.
    now replace (52 + (quotient_log2 a b - 52))%Z with (quotient_log2 a b) by lia. }
  pose proof (pow2_pos (exponent a b)) as Hp.
  assert (H : (2 ^ 52 <= significand a b (exponent a b))%Z).
  { apply significand_ge; [exact Hb|]. now rewrite <- E. }
  rewrite Zle_Qle in H. rewrite E. nra.
Qed.

Lemma nearest_double_mono (a a' b : Z) :
  (0 < a <= a')%Z -> (0 < b)%Z -> (nearest_double a b <= nearest_double a' b)%Q.
Proof.
  intros Ha Hb.
  pose proof (exponent_mono a a' b Ha Hb) as He.
  destruct (Z.eq_dec (exponent a b) (exponent a' b)) as [E|E].
  - rewrite !nearest_double_eq, <- E.
    pose proof (significand_mono a a' b (exponent a b) Hb ltac:(lia)) as H.
    rewrite Zle_Qle in H. pose proof (pow2_pos (exponent a b)). nra.
  - pose proof (nearest_double_upper a b ltac:(lia) Hb) as Hup.
    pose proof (nearest_double_lower a' b ltac:(lia) Hb ltac:(unfold exponent in *; lia))
      as Hlow.
    assert (Hexp : (exponent a b + 53 <= quotient_log2 a' b)%Z)
      by (unfold exponent in *; lia).
    apply pow2_le in Hexp. lra.
Qed.

(** Python's division is non-negative and monotone on non-negative
    dividends. *)
Lemma binary64_monotone : monotone binary64.
Proof.
  intros a a' b [Ha Haa'] Hb. cbn [truediv binary64]. unfold binary64_truediv.
  assert (Eb : (b =? 0)%Z = false) by (apply Z.eqb_neq; lia).
  rewrite Eb, !orb_false_r.
  assert (Hsgn : forall x, (0 < x)%Z -> (Z.sgn x =? Z.sgn b)%Z = true).
  { intros x Hx. apply Z.eqb_eq. rewrite !Z.sgn_pos; lia. }
  rewrite (Z.abs_eq b) by lia.
  destruct (Z.eqb_spec a 0) as [->|Hne]; destruct (Z.eqb_spec a' 0) as [E'|Hne'].
  - split; apply Qle_refl.
  - rewrite Hsgn, Z.abs_eq by lia. split; [apply Qle_refl|].
    apply nearest_double_nonneg; lia.
  - lia.
  - rewrite !Hsgn, !Z.abs_eq by lia.
    split; [apply nearest_double_nonneg; lia|apply nearest_double_mono; lia].
Qed.


Lemma nearest_double_error (a b : Z) :
  (0 < a)%Z -> (0 < b)%Z ->
  (Qabs (nearest_double a b - inject_Z a / inject_Z b)
   <= pow2 (exponent a b - 1))%Q.
Proof.
  intros Ha Hb. rewrite nearest_double_eq.
  pose proof (significand_near a b (exponent a b) Hb) as [H1 H2].
  assert (HB : (0 < inject_Z b)%Q) by (now rewrite <- (Zlt_Qlt 0)).
  assert (Ex : (inject_Z a / inject_Z b * inject_Z b == inject_Z a)%Q)
    by (field; lra).
  assert (Ep : (pow2 (exponent a b) == 2 * pow2 (exponent a b - 1))%Q).
  { rewrite <- pow2_S. now replace (exponent a b - 1 + 1)%Z with (exponent a b) by lia. }
  pose proof (pow2_pos (exponent a b - 1)) as Hp.
  set (x := (inject_Z a / inject_Z b)%Q) in *.
  set (A := inject_Z a) in *. set (B := inject_Z b) in *.
  set (M := inject_Z (significand a b (exponent a b))) in *.
  set (P := pow2 (exponent a b)) in *. set (P1 := pow2 (exponent a b - 1)) in *.
  apply Qabs_Qle_condition. split.
  - assert (B * - P1 <= B * (M * P - x))%Q; [|nra]. nra.
  - assert (B * (M * P - x) <= B * P1)%Q; [|nra]. nra.
Qed.

Lemma binary64_accurate : accurate binary64.
Proof.
  intros a b Ha Hb x. subst x. cbn [truediv binary64]. unfold binary64_truediv.
  assert (Eb : (b =? 0)%Z = false) by (apply Z.eqb_neq; lia).
  rewrite Eb, orb_false_r.
  destruct (Z.eqb_spec a 0) as [->|Hne].
  - right. unfold Qdiv. rewrite Qmult_0_l. pose proof (pow2_pos (-1075)).
    apply Qabs_Qle_condition. lra.
  - assert (Hsgn : (Z.sgn a =? Z.sgn b)%Z = true)
      by (apply Z.eqb_eq; rewrite !Z.sgn_pos; lia).
    rewrite Hsgn, !Z.abs_eq by lia.
    pose proof (nearest_double_error a b ltac:(lia) Hb) as Herr.
    destruct (Z.eq_dec (exponent a b) (-1074)%Z) as [E|E].
    + right. now rewrite E in Herr.
    + left. eapply Qle_trans; [exact Herr|].
      pose proof (quotient_log2_spec a b ltac:(lia) Hb) as [Hle _].
      assert (Ee : (exponent a b - 1 = quotient_log2 a b + -53)%Z)
        by (unfold exponent in *; lia).
      rewrite Ee, pow2_add.
      assert (HB : (0 < inject_Z b)%Q) by (now rewrite <- (Zlt_Qlt 0)).
      assert (Ex : (inject_Z a / inject_Z b * inject_Z b == inject_Z a)%Q)
        by (field; lra).
      pose proof (pow2_pos (-53)) as Hp.
      set (x := (inject_Z a / inject_Z b)%Q) in *.
      set (A := inject_Z a) in *. set (B := inject_Z b) in *.
      set (PL := pow2 (quotient_log2 a b)) in *. set (P := pow2 (-53)) in *.
      assert (PL <= x)%Q; [|nra].
      assert (B * PL <= B * x)%Q; [|nra]. nra.
Qed.

Lemma exact_accurate : accurate exact.
Proof.
  intros a b Ha Hb x. right. cbn [truediv exact]. subst x.
  assert (E : (inject_Z a / inject_Z b - inject_Z a / inject_Z b == 0)%Q) by ring.
  rewrite E. pose proof (pow2_pos (-1075)). apply Qabs_Qle_condition. lra.
Qed.


(** A whole quotient below [2 ^ 53] is not rounded at all. *)
Lemma binary64_whole (q b : Z) :
  (0 <= q < 2 ^ 53)%Z -> (0 < b)%Z ->
  (truediv binary64 (q * b) b == inject_Z q)%Q.
Proof.
  intros Hq Hb. cbn [truediv binary64]. unfold binary64_truediv.
  assert (Eb : (b =? 0)%Z = false) by (apply Z.eqb_neq; lia).
  rewrite Eb, orb_false_r.
  destruct (Z.eqb_spec (q * b) 0) as [E0|Hne].
  - assert (q = 0%Z) by nia. subst q. reflexivity.
  - assert (Hqpos : (0 < q)%Z) by nia.
    assert (Ha : (0 < q * b)%Z) by nia.
    assert (Hsgn : (Z.sgn (q * b) =? Z.sgn b)%Z = true)
      by (apply Z.eqb_eq; rewrite !Z.sgn_pos; lia).
    rewrite Hsgn, !Z.abs_eq by lia.
    pose proof (quotient_log2_spec (q * b) b Ha Hb) as [Hle Hlt].
    rewrite inject_Z_mult in Hle, Hlt.
    assert (HB : (0 < inject_Z b)%Q) by (now rewrite <- (Zlt_Qlt 0)).
    assert (Hq1 : (pow2 0 <= inject_Z q)%Q)
      by (change (pow2 0) with (inject_Z 1); rewrite <- Zle_Qle; lia).
    assert (Hq2 : (inject_Z q < pow2 53)%Q)
      by (rewrite (pow2_inject 53) by lia; rewrite <- Zlt_Qlt; lia).
    set (L := quotient_log2 (q * b) b) in *.
    assert (HL1 : (pow2 L < pow2 53)%Q).
    { set (Q := inject_Z q) in *. set (B := inject_Z b) in *. set (P := pow2 L) in *.
      assert (B * P <= B * Q)%Q by nra. nra. }
    assert (HL2 : (pow2 0 < pow2 (L + 1))%Q).
    { set (Q := inject_Z q) in *. set (B := inject_Z b) in *. set (P := pow2 (L + 1)) in *.
      assert (B * Q < B * P)%Q by nra. nra. }
    apply pow2_lt_inv in HL1, HL2.
    rewrite nearest_double_eq.
    assert (He : exponent (q * b) b = (L - 52)%Z) by (unfold exponent; fold L; lia).
    rewrite He. unfold significand.
    rewrite (Z.max_l 0 (L - 52)) by lia.
    replace (q * b * 2 ^ Z.max 0 (- (L - 52)))%Z
      with (q * 2 ^ Z.max 0 (- (L - 52)) * (b * 2 ^ 0))%Z by ring.
    rewrite nearest_even_integer by lia.
    rewrite scale_num, (Z.max_l 0 (L - 52)) by lia.
    change (inject_Z (2 ^ 0)) with 1%Q. ring.
Qed.

End PyFloat.

(* ===================================================================== *)
(** * JSON values, as [response.json()] hands them to the pipeline *)
(* ===================================================================== *)

Module Json.

#[local] Set Warnings "-register-all".

Inductive JValue : Type :=
| JNull
| JBool (b : bool)
| JInt (n : Z)
| JFloat (q : Q)
| JStr (s : string)
| JArr (items : list JValue)
| JObj (members : list (string * JValue)).

(** A raw record: one JSON object of a page, a Python [dict]. *)
Abbreviation RawRecord := (gmap string JValue).

End Json.

(* ===================================================================== *)
(** * Models: [src/models/post.py], [src/models/user.py] *)
(* ===================================================================== *)

Module Models.
Import Json.

(** [@dataclass class Post]. *)
Record Post : Type := mkPost {
  post_id : Z;
  user_id : Z;
  title : string;
  body : string
}.

(** [class User(BaseModel)]; [avg_chars] is a Python float, kept as the
    rational number the stored double denotes. *)
Record User : Type := mkUser {
  id : Z;
  name : string;
  username : string;
  email : string;
  posts : list Post;
  post_count : Z;
  avg_chars : Q
}.

(** Attribute assignment [user.f = v] on a model instance (pydantic does not
    validate on assignment by default). *)
Definition set_posts (v : list Post) (u : User) : User :=
  mkUser (id u) (name u) (username u) (email u) v (post_count u) (avg_chars u).
Definition set_post_count (v : Z) (u : User) : User :=
  mkUser (id u) (name u) (username u) (email u) (posts u) v (avg_chars u).
Definition set_avg_chars (v : Q) (u : User) : User :=
  mkUser (id u) (name u) (username u) (email u) (posts u) (post_count u) v.

(** Field validation is pydantic's, which is not part of the repository:
    how a JSON value is accepted for a field of each annotated type is a
    parameter of the model.  [None] stands for a validation failure. *)
Record Pydantic : Type := mkPydantic {
  validate_int : JValue -> option Z;
  validate_str : JValue -> option string;
  validate_float : JValue -> option Q;
  validate_posts : JValue -> option (list Post)
}.

(** The instance that accepts exactly the JSON values of the annotated
    type (every pydantic mode accepts those). *)
Definition exact_types : Pydantic :=
  {| validate_int := fun v => match v with JInt n => Some n | _ => None end;
     validate_str := fun v => match v with JStr s => Some s | _ => None end;
     validate_float := fun v =>
       match v with JFloat q => Some q | JInt n => Some (inject_Z n) | _ => None end;
     validate_posts := fun v => match v with JArr [] => Some [] | _ => None end |}.

(** A field without default: a missing key is a validation error. *)
Definition required {A : Type} (f : JValue -> option A)
    (kwargs : RawRecord) (key : string) : option A :=
  kwargs !! key ≫= f.

(** A field with a default: a missing key takes the default. *)
Definition defaulted {A : Type} (f : JValue -> option A) (dflt : A)
    (kwargs : RawRecord) (key : string) : option A :=
  match kwargs !! key with
  | None => Some dflt
  | Some v => f v
  end.

(** [User] built from keyword arguments: [id], [name], [username] and
    [email] have no default;
    [posts = []], [post_count = 0], [avg_chars = 0.0]; keys that are not
    fields are ignored.  [None] is pydantic's [ValidationError]. *)
Definition User_init (V : Pydantic) (kwargs : RawRecord) : option User :=
  i ← required (validate_int V) kwargs "id";
  n ← required (validate_str V) kwargs "name";
  un ← required (validate_str V) kwargs "username";
  em ← required (validate_str V) kwargs "email";
  ps ← defaulted (validate_posts V) [] kwargs "posts";
  pc ← defaulted (validate_int V) 0%Z kwargs "post_count";
  ac ← defaulted (validate_float V) 0%Q kwargs "avg_chars";
  Some (mkUser i n un em ps pc ac).

End Models.

(* ===================================================================== *)
(** * [src/processors/data_processor.py] *)
(* ===================================================================== *)

Module DataProcessor.
Import Json Models.

(** The lines the module's logger receives. *)
Inductive Level : Type := DEBUG | INFO | WARNING | ERROR.

Inductive Message : Type :=
| StartingUsers (n : nat)
| IncompleteUser (raw : RawRecord)
| UserProcessed (uid : Z)
| UserValidationFailed (uid : option JValue)
| FinishedUsers (valid : nat)
| EmptyUserList
| ZeroPostCounts.

Definition LogRecord : Type := Level * Message.

(** [all(key in user for key in ['id', 'name'])]. *)
Definition has_required_keys (user : RawRecord) : bool :=
  forallb (fun key => bool_decide (is_Some (user !! key))) ["id"; "name"].

(** The [for user in users_data] loop of [process_users], with its two
    accumulators: the list being appended to and the log. *)
Fixpoint process_users_loop (V : Pydantic) (users_data : list RawRecord)
    (validated_users : list User) (log : list LogRecord)
    : list User * list LogRecord :=
  match users_data with
  | [] => (validated_users, log)
  | user :: rest =>
      if negb (has_required_keys user) then
        process_users_loop V rest validated_users
          (log ++ [(WARNING, IncompleteUser user)])
      else
        match User_init V user with
        | Some validated_user =>
            process_users_loop V rest (validated_users ++ [validated_user])
              (log ++ [(DEBUG, UserProcessed (id validated_user))])
        | None =>
            process_users_loop V rest validated_users
              (log ++ [(ERROR, UserValidationFailed (user !! "id"))])
        end
  end.

Definition process_users (V : Pydantic) (users_data : list RawRecord)
    : list User * list LogRecord :=
  let '(validated_users, log) :=
    process_users_loop V users_data [] [(INFO, StartingUsers (length users_data))] in
  (validated_users, log ++ [(INFO, FinishedUsers (length validated_users))]).

(** [calculate_metrics].  With [Post.body] a string and [user_posts]
    non-empty where the division happens, no statement of the [try] block
    raises, so the [ProcessingError] handler is not reached and the function
    is total; its logger calls are left out.  [total_chars / len(user_posts)]
    is the float division [F]. *)
Definition calculate_metrics (F : PyFloat.Arith) (user : User) (posts : list Post) : User :=
  let user_posts := filter (fun post => user_id post = id user) posts in
  let user := set_posts user_posts user in
  let user := set_post_count (Z.of_nat (length user_posts)) user in
  match user_posts with
  | _ :: _ =>
      let total_chars := Py.sum (map (fun post => Py.len (Py.strip (body post))) user_posts) in
      set_avg_chars (PyFloat.truediv F total_chars (Z.of_nat (length user_posts))) user
  | [] => set_avg_chars 0%Q user
  end.

(** [validate_users]: what it returns or raises, and what it logs.
    [not user.post_count] holds exactly for a zero count. *)
Definition validate_users (users : list User) : Py.result unit * list LogRecord :=
  match users with
  | [] => (Py.Raise Py.ValueError, [(ERROR, EmptyUserList)])
  | _ :: _ =>
      if existsb (fun user => (post_count user =? 0)%Z) users
      then (Py.Ret tt, [(WARNING, ZeroPostCounts)])
      else (Py.Ret tt, [])
  end.

(** What one raw record contributes to the output of [process_users]. *)
Definition accepted (V : Pydantic) (raw : RawRecord) : option User :=
  if has_required_keys raw then User_init V raw else None.

(** A dict literal. *)
Definition dict (items : list (string * JValue)) : RawRecord := list_to_map items.

(** The input of the specification's example: three records carrying only
    [id] and [name], the middle one without [id]. *)
Definition bare_records : list RawRecord :=
  [dict [("id", JInt 1); ("name", JStr "A")];
   dict [("name", JStr "B")];
   dict [("id", JInt 3); ("name", JStr "C")]].

(** The same records with the two other fields of [User] that have no
    default. *)
Definition full_records : list RawRecord :=
  [dict [("id", JInt 1); ("name", JStr "A"); ("username", JStr "a"); ("email", JStr "a@x")];
   dict [("name", JStr "B"); ("username", JStr "b"); ("email", JStr "b@x")];
   dict [("id", JInt 3); ("name", JStr "C"); ("username", JStr "c"); ("email", JStr "c@x")]].

(** A validator accepts at least the values of the annotated type. *)
Definition accepts_own_type (V : Pydantic) : Prop :=
  (forall n, validate_int V (JInt n) = Some n)
  /\ (forall s, validate_str V (JStr s) = Some s).

(** ** Specification-side vocabulary *)

(** The number of posts of [posts] whose foreign key is [uid]. *)
Fixpoint count_owned (uid : Z) (posts : list Post) : nat :=
  match posts with
  | [] => 0
  | p :: rest => (if (user_id p =? uid)%Z then 1 else 0) + count_owned uid rest
  end.

(** The sum of the trimmed body lengths of a list of posts. *)
Fixpoint trimmed_total (posts : list Post) : Z :=
  match posts with
  | [] => 0
  | p :: rest => Py.len (Py.strip (body p)) + trimmed_total rest
  end.

(** ** Aggregation: [calculate_metrics] *)

Lemma foldl_add_shift (a : Z) (xs : list Z) :
  foldl Z.add a xs = (a + foldl Z.add 0 xs)%Z.
Proof.
  revert a. induction xs as [|x xs IH]; intros a; simpl.
  - lia.
  - rewrite (IH (a + x)%Z), (IH (0 + x)%Z). lia.
Qed.

Lemma sum_trimmed (ps : list Post) :
  Py.sum (map (fun post => Py.len (Py.strip (body post))) ps) = trimmed_total ps.
Proof.
  unfold Py.sum. induction ps as [|p ps IH]; simpl; [reflexivity|].
  rewrite foldl_add_shift, IH. lia.
Qed.

Lemma length_owned (uid : Z) (ps : list Post) :
  length (filter (fun post => user_id post = uid) ps) = count_owned uid ps.
Proof.
  induction ps as [|p ps IH]; simpl; [reflexivity|].
  rewrite filter_cons. destruct (Z.eqb_spec (user_id p) uid) as [E|E].
  - rewrite decide_True by exact E. simpl. now rewrite IH.
  - rewrite decide_False by exact E. simpl. exact IH.
Qed.

(** The three derived fields after aggregation, in one place. *)
Lemma calculate_metrics_fields (F : PyFloat.Arith) (user : User) (all_posts : list Post) :
  let owned := filter (fun post => user_id post = id user) all_posts in
  calculate_metrics F user all_posts =
    mkUser (id user) (name user) (username user) (email user)
      owned (Z.of_nat (length owned))
      (match owned with
       | [] => 0%Q
       | _ :: _ => PyFloat.truediv F (trimmed_total owned) (Z.of_nat (length owned))
       end).
Proof.
  intros owned. unfold calculate_metrics. fold owned.
  rewrite sum_trimmed. destruct owned; reflexivity.
Qed.

Lemma trimmed_total_nonneg (ps : list Post) : (0 <= trimmed_total ps)%Z.
Proof. induction ps as [|p ps IH]; cbn [trimmed_total]; unfold Py.len in *; lia. Qed.

(** C1.  For every user and every list of posts, [calculate_metrics] sets
    [post_count] to the number of posts whose [user_id] is the user's [id];
    attaches exactly those posts, in the relative order they have in the input
    list; and sets [avg_chars] to 0 when there is none, and otherwise to the
    float quotient of the sum of the trimmed body lengths of the attached
    posts by their number.  The stored number is the mean up to the rounding
    of that one division: with Python's division, and with every accurate
    one, it differs from the mean by at most the mean times [2 ^ -53] (or by
    at most [2 ^ -1075]); with the exact division it is the mean.  The
    identifying fields are left as they were. *)
Theorem calculate_metrics_spec (F : PyFloat.Arith) (user : User) (all_posts : list Post) :
  let user' := calculate_metrics F user all_posts in
  let n := count_owned (id user) all_posts in
  let mean := (inject_Z (trimmed_total (posts user')) / inject_Z (Z.of_nat n))%Q in
  post_count user' = Z.of_nat n
  /\ length (posts user') = n
  /\ sublist (posts user') all_posts
  /\ (forall p, p ∈ posts user' <-> p ∈ all_posts /\ user_id p = id user)
  /\ (n = 0%nat -> avg_chars user' = 0%Q)
  /\ (n <> 0%nat ->
      avg_chars user' = PyFloat.truediv F (trimmed_total (posts user')) (Z.of_nat n))
  /\ (n <> 0%nat -> PyFloat.accurate F \/ F = PyFloat.binary64 ->
      (Qabs (avg_chars user' - mean) <= mean * PyFloat.pow2 (-53))%Q
      \/ (Qabs (avg_chars user' - mean) <= PyFloat.pow2 (-1075))%Q)
  /\ (n <> 0%nat -> F = PyFloat.exact -> avg_chars user' = mean)
  /\ (id user', name user', username user', email user')
     = (id user, name user, username user, email user).
Proof.
  intros user' n mean. subst user' n mean.
  rewrite calculate_metrics_fields. cbn [post_count posts avg_chars id name username email].
  rewrite length_owned.
  split; [reflexivity|]. split; [reflexivity|].
  split; [apply sublist_filter|].
  split.
  { intros p. rewrite list_elem_of_filter. tauto. }
  pose proof (length_owned (id user) all_posts) as Hlen.
  split.
  { intros Hn. rewrite Hn in Hlen.
    destruct (filter _ all_posts); [reflexivity | discriminate Hlen]. }
  assert (Havg : count_owned (id user) all_posts <> 0%nat ->
            match filter (fun post => user_id post = id user) all_posts with
            | [] => 0%Q
            | _ :: _ =>
                PyFloat.truediv F
                  (trimmed_total (filter (fun post => user_id post = id user) all_posts))
                  (Z.of_nat (count_owned (id user) all_posts))
            end
            = PyFloat.truediv F
                (trimmed_total (filter (fun post => user_id post = id user) all_posts))
                (Z.of_nat (count_owned (id user) all_posts))).
  { intros Hn.
    destruct (filter (fun post => user_id post = id user) all_posts) as [|p owned] eqn:E.
    { simpl in Hlen. congruence. }
    reflexivity. }
  split; [exact Havg|].
  split.
  { intros Hn Hacc. rewrite (Havg Hn).
    assert (Hacc' : PyFloat.accurate F)
      by (destruct Hacc as [Hacc| ->]; [exact Hacc|apply PyFloat.binary64_accurate]).
    apply Hacc'; [apply trimmed_total_nonneg|lia]. }
  split; [|reflexivity].
  intros Hn ->. rewrite (Havg Hn). reflexivity.
Qed.

(** The example of the specification, with Python's division: user 1
    owns two posts with bodies of 2 and 4 characters (count 2, average 3.0),
    user 2 owns none.  And a mean that no double holds exactly: one
    character over three posts is stored as 0.3333333333333333, that is
    6004799503160661 / 2^54, within a factor [2 ^ -53] of 1/3. *)
Lemma calculate_metrics_spec_witness :
  let ps := [mkPost 10 1 "t" "ab"; mkPost 11 1 "t" "abcd"] in
  let u1 := calculate_metrics PyFloat.binary64 (mkUser 1 "A" "a" "a@x" [] 0 0) ps in
  let u2 := calculate_metrics PyFloat.binary64 (mkUser 2 "B" "b" "b@x" [] 0 0) ps in
  let thirds := [mkPost 20 3 "t" " a "; mkPost 21 3 "t" ""; mkPost 22 3 "t" "  "] in
  let u3 := calculate_metrics PyFloat.binary64 (mkUser 3 "C" "c" "c@x" [] 0 0) thirds in
  post_count u1 = 2%Z /\ (avg_chars u1 == 3)%Q /\ posts u1 = ps
  /\ post_count u2 = 0%Z /\ avg_chars u2 = 0%Q
  /\ post_count u3 = 3%Z
  /\ (avg_chars u3 == 6004799503160661 # 18014398509481984)%Q
  /\ ((Qabs (avg_chars u3 - inject_Z 1 / inject_Z 3)
       <= inject_Z 1 / inject_Z 3 * PyFloat.pow2 (-53))%Q
      \/ (Qabs (avg_chars u3 - inject_Z 1 / inject_Z 3) <= PyFloat.pow2 (-1075))%Q).
Proof.
  cbv zeta.
  pose proof (calculate_metrics_spec PyFloat.binary64 (mkUser 1 "A" "a" "a@x" [] 0 0)
                [mkPost 10 1 "t" "ab"; mkPost 11 1 "t" "abcd"]) as H1.
  pose proof (calculate_metrics_spec PyFloat.binary64 (mkUser 2 "B" "b" "b@x" [] 0 0)
                [mkPost 10 1 "t" "ab"; mkPost 11 1 "t" "abcd"]) as H2.
  pose proof (calculate_metrics_spec PyFloat.binary64 (mkUser 3 "C" "c" "c@x" [] 0 0)
                [mkPost 20 3 "t" " a "; mkPost 21 3 "t" ""; mkPost 22 3 "t" "  "]) as H3.
  cbv zeta in H1, H2, H3.
  destruct H1 as (Hc1 & _ & _ & _ & _ & Ha1 & _).
  destruct H2 as (Hc2 & _ & _ & _ & Ha2 & _).
  destruct H3 as (Hc3 & _ & _ & _ & _ & Ha3 & Hm3 & _).
  split; [exact Hc1|].
  split; [rewrite Ha1 by (vm_compute; discriminate); vm_compute; reflexivity|].
  split; [reflexivity|].
  split; [exact Hc2|].
  split; [apply Ha2; reflexivity|].
  split; [exact Hc3|].
  split; [rewrite Ha3 by (vm_compute; discriminate); vm_compute; reflexivity|].
  apply Hm3; [vm_compute; discriminate|right; reflexivity].
Defined.

(** C8.  Aggregation is idempotent: a second run on the user the first run
    produced, with the same posts, changes nothing; and the three derived
    fields are overwritten, never accumulated: whatever [posts], [post_count]
    and [avg_chars] held before, the result is the same. *)
Theorem calculate_metrics_idempotent (F : PyFloat.Arith) (user : User) (all_posts : list Post) :
  let once := calculate_metrics F user all_posts in
  let twice := calculate_metrics F once all_posts in
  twice = once
  /\ post_count twice = post_count once
  /\ avg_chars twice = avg_chars once
  /\ (forall old_posts old_count old_avg,
        calculate_metrics F
          (mkUser (id user) (name user) (username user) (email user)
                  old_posts old_count old_avg) all_posts
        = once).
Proof.
  intros once twice.
  assert (Hover : forall old_posts old_count old_avg,
        calculate_metrics F
          (mkUser (id user) (name user) (username user) (email user)
                  old_posts old_count old_avg) all_posts
        = once).
  { intros. subst once. rewrite !calculate_metrics_fields. reflexivity. }
  assert (Htwice : twice = once).
  { unfold twice.
    etransitivity; [|apply (Hover (posts once) (post_count once) (avg_chars once))].
    f_equal. unfold once. rewrite calculate_metrics_fields. reflexivity. }
  rewrite Htwice. auto.
Qed.

(** ** Normalisation of users: [process_users] *)

Lemma process_users_loop_fst (V : Pydantic) (users_data : list RawRecord)
    (acc : list User) (log : list LogRecord) :
  fst (process_users_loop V users_data acc log) = acc ++ omap (accepted V) users_data.
Proof.
  revert acc log. induction users_data as [|raw rest IH]; intros acc log; simpl.
  - now rewrite app_nil_r.
  - unfold accepted. destruct (has_required_keys raw); simpl.
    + destruct (User_init V raw) as [u|]; rewrite IH; [|reflexivity].
      now rewrite <- app_assoc.
    + apply IH.
Qed.

Lemma process_users_fst (V : Pydantic) (users_data : list RawRecord) :
  fst (process_users V users_data) = omap (accepted V) users_data.
Proof.
  unfold process_users.
  pose proof (process_users_loop_fst V users_data []
                [(INFO, StartingUsers (length users_data))]) as H.
  destruct (process_users_loop V users_data [] _) as [vs log]. exact H.
Qed.

Lemma has_required_keys_false (raw : RawRecord) :
  raw !! "id" = None \/ raw !! "name" = None -> has_required_keys raw = false.
Proof.
  unfold has_required_keys. simpl. intros [H|H]; rewrite H.
  - reflexivity.
  - rewrite (bool_decide_eq_false_2 (is_Some None)) by (intros [x Hx]; discriminate Hx).
    now rewrite andb_false_r.
Qed.

Lemma User_init_needs_all (V : Pydantic) (raw : RawRecord) :
  raw !! "id" = None \/ raw !! "name" = None
  \/ raw !! "username" = None \/ raw !! "email" = None ->
  User_init V raw = None.
Proof.
  unfold User_init, required.
  intros [H|[H|[H|H]]]; rewrite H; simpl;
    repeat (match goal with |- context [?m !! ?k ≫= ?f] => destruct (m !! k ≫= f); simpl end);
    reflexivity.
Qed.

(** The three bare records of the example are all dropped, whatever the
    field validators accept. *)
Lemma bare_records_rejected (V : Pydantic) : fst (process_users V bare_records) = [].
Proof.
  rewrite process_users_fst. unfold bare_records.
  assert (Hdrop : forall raw, raw !! "username" = None -> accepted V raw = None).
  { intros raw H. unfold accepted. rewrite User_init_needs_all by tauto.
    now destruct (has_required_keys raw). }
  cbn -[dict accepted]. now rewrite !Hdrop by reflexivity.
Qed.

(** C2, as the code has it.  [process_users] returns for every input (it is
    a total function: nothing is raised for a bad record) the users built from
    the records that carry [id] and [name] and pass the validation of the
    [User] model, in input order.  A record without [id] or [name] is skipped,
    and so is every record without [username] or [email], which the model
    requires as well.  Hence the three records of the example, which carry
    only [id] and [name], yield no user at all; once [username] and [email] are
    supplied, they yield the users with ids 1 and 3, in that order. *)
Theorem process_users_spec (V : Pydantic) (users_data : list RawRecord) :
  fst (process_users V users_data) = omap (accepted V) users_data
  /\ (forall before raw after,
        raw !! "id" = None \/ raw !! "name" = None
        \/ raw !! "username" = None \/ raw !! "email" = None ->
        fst (process_users V (before ++ raw :: after))
        = fst (process_users V (before ++ after)))
  /\ (forall before raw after u,
        accepted V raw = Some u ->
        fst (process_users V (before ++ raw :: after))
        = fst (process_users V before) ++ u :: fst (process_users V after))
  /\ fst (process_users V bare_records) = []
  /\ (accepts_own_type V -> map id (fst (process_users V full_records)) = [1%Z; 3%Z]).
Proof.
  split; [apply process_users_fst|].
  split.
  { intros before raw after H. rewrite !process_users_fst, !omap_app. simpl.
    assert (accepted V raw = None) as ->; [|reflexivity].
    unfold accepted. rewrite User_init_needs_all by exact H.
    now destruct (has_required_keys raw). }
  split.
  { intros before raw after u H. rewrite !process_users_fst, omap_app. simpl.
    now rewrite H. }
  split; [apply bare_records_rejected|].
  intros [Hint Hstr]. rewrite process_users_fst. unfold full_records.
  cbn -[dict accepted].
  unfold accepted at 2.
  rewrite has_required_keys_false by (left; reflexivity).
  unfold accepted, User_init, required, defaulted.
  repeat match goal with
         | |- context [dict ?l !! ?k] =>
             let r := eval vm_compute in (dict l !! k) in
             change (dict l !! k) with r
         end.
  simpl. rewrite !Hint, !Hstr. simpl.
  repeat match goal with
         | |- context [has_required_keys ?d] =>
             let r := eval vm_compute in (has_required_keys d) in
             change (has_required_keys d) with r
         end.
  reflexivity.
Qed.

Lemma process_users_spec_witness :
  map id (fst (process_users exact_types full_records)) = [1%Z; 3%Z]
  /\ fst (process_users exact_types bare_records) = [].
Proof.
  split.
  - apply (process_users_spec exact_types []).
    split; intros; reflexivity.
  - apply (process_users_spec exact_types []).
Defined.

(** The example of the specification evaluated on the code: whatever the
    field validators accept, the three bare records produce no user, so the
    output is not the pair of users with ids 1 and 3. *)
Lemma process_users_bare_records_dropped :
  (forall V, map id (fst (process_users V bare_records)) = [])
  /\ map id (fst (process_users exact_types bare_records)) <> [1%Z; 3%Z].
Proof.
  assert (H : forall V, map id (fst (process_users V bare_records)) = []).
  { intros V. now rewrite bare_records_rejected. }
  split; [exact H|]. rewrite H. discriminate.
Qed.

(** ** The gate before rendering: [validate_users] *)

(** C7.  [validate_users] raises (a [ValueError]) exactly when the list of
    users is empty.  On every non-empty list it returns; when some user, and
    so in particular when every user, has a zero [post_count], it returns
    after logging one warning. *)
Theorem validate_users_spec (users : list User) :
  (fst (validate_users users) = Py.Raise Py.ValueError <-> users = [])
  /\ ((exists e, fst (validate_users users) = Py.Raise e) <-> users = [])
  /\ (users <> [] -> fst (validate_users users) = Py.Ret tt)
  /\ (users <> [] -> Forall (fun u => post_count u = 0%Z) users ->
      validate_users users = (Py.Ret tt, [(WARNING, ZeroPostCounts)])).
Proof.
  destruct users as [|u us].
  - simpl. repeat split; try tauto; try congruence. eauto.
  - unfold validate_users.
    destruct (existsb _ (u :: us)) eqn:E; simpl.
    + repeat split; try congruence.
      intros [e He]. discriminate He.
    + repeat split; try congruence.
      { intros [e He]. discriminate He. }
      intros _ Hall. inversion Hall as [|? ? Hu _]; subst.
      simpl in E. rewrite Hu in E. discriminate E.
Qed.

Lemma validate_users_spec_witness :
  validate_users [mkUser 1 "A" "a" "a@x" [] 0 0; mkUser 2 "B" "b" "b@x" [] 0 0]
  = (Py.Ret tt, [(WARNING, ZeroPostCounts)])
  /\ fst (validate_users [mkUser 1 "A" "a" "a@x" [] 5 0]) = Py.Ret tt
  /\ fst (validate_users []) = Py.Raise Py.ValueError.
Proof.
  split; [|split].
  - apply (validate_users_spec
             [mkUser 1 "A" "a" "a@x" [] 0 0; mkUser 2 "B" "b" "b@x" [] 0 0]).
    + discriminate.
    + repeat constructor.
  - apply (validate_users_spec [mkUser 1 "A" "a" "a@x" [] 5 0]). discriminate.
  - apply (validate_users_spec []). reflexivity.
Defined.

(** ** Posts: [process_posts] *)

(** A [Post] as [process_posts] builds it.  The dataclass checks nothing:
    its four fields hold whatever values the record held. *)
Record PostObject : Type := mkPostObject {
  obj_id : JValue;
  obj_user_id : JValue;
  obj_title : JValue;
  obj_body : JValue
}.

(** [post[key]]: the value ([inl]), or [KeyError(key)] ([inr]). *)
Definition getitem (post : RawRecord) (key : string) : JValue + string :=
  match post !! key with
  | Some v => inl v
  | None => inr key
  end.

(** [Post(id=post['id'], user_id=post['userId'], title=post['title'],
    body=post['body'])]: the subscripts are evaluated in this order and the
    first missing key raises. *)
Definition Post_of_record (post : RawRecord) : PostObject + string :=
  match getitem post "id" with
  | inr key => inr key
  | inl i =>
      match getitem post "userId" with
      | inr key => inr key
      | inl u =>
          match getitem post "title" with
          | inr key => inr key
          | inl t =>
              match getitem post "body" with
              | inr key => inr key
              | inl b => inl (mkPostObject i u t b)
              end
          end
      end
  end.

Inductive PostMessage : Type :=
| StartingPosts (n : nat)
| PostProcessed (pid : JValue)
| MissingField (key : string) (raw : RawRecord)
| FinishedPosts (processed : nat).

(** The [for post in posts_data] loop of [process_posts]. *)
Fixpoint process_posts_loop (posts_data : list RawRecord)
    (processed_posts : list PostObject) (log : list (Level * PostMessage))
    : list PostObject * list (Level * PostMessage) :=
  match posts_data with
  | [] => (processed_posts, log)
  | post :: rest =>
      match Post_of_record post with
      | inl processed_post =>
          process_posts_loop rest (processed_posts ++ [processed_post])
            (log ++ [(DEBUG, PostProcessed (obj_id processed_post))])
      | inr key =>
          process_posts_loop rest processed_posts
            (log ++ [(ERROR, MissingField key post)])
      end
  end.

Definition process_posts (posts_data : list RawRecord)
    : list PostObject * list (Level * PostMessage) :=
  let '(processed_posts, log) :=
    process_posts_loop posts_data [] [(INFO, StartingPosts (length posts_data))] in
  (processed_posts, log ++ [(INFO, FinishedPosts (length processed_posts))]).

(** The post a record with the four keys gives. *)
Definition complete_post (raw : RawRecord) : option PostObject :=
  i ← raw !! "id"; u ← raw !! "userId"; t ← raw !! "title"; b ← raw !! "body";
  Some (mkPostObject i u t b).

(** The first of the four keys, in the order the constructor call reads
    them, that a record lacks. *)
Definition first_missing (raw : RawRecord) : option string :=
  find (fun key => bool_decide (raw !! key = None)) ["id"; "userId"; "title"; "body"].

(** The line [process_posts] logs for one record. *)
Definition post_line (raw : RawRecord) : Level * PostMessage :=
  match first_missing raw with
  | Some key => (ERROR, MissingField key raw)
  | None => (DEBUG, PostProcessed (default JNull (raw !! "id")))
  end.

Lemma Post_of_record_cases (raw : RawRecord) :
  match Post_of_record raw with
  | inl p => complete_post raw = Some p /\ first_missing raw = None
             /\ raw !! "id" = Some (obj_id p)
  | inr key => complete_post raw = None /\ first_missing raw = Some key
  end.
Proof.
  unfold Post_of_record, getitem, complete_post, first_missing. cbn [find].
  destruct (raw !! "id") as [i|] eqn:Ei; cbn; [|auto].
  destruct (raw !! "userId") as [u|] eqn:Eu; cbn; [|auto].
  destruct (raw !! "title") as [t|] eqn:Et; cbn; [|auto].
  destruct (raw !! "body") as [b|] eqn:Eb; cbn; auto.
Qed.

Lemma process_posts_loop_spec (posts_data : list RawRecord) :
  forall acc log,
    process_posts_loop posts_data acc log
    = (acc ++ omap complete_post posts_data, log ++ map post_line posts_data).
Proof.
  induction posts_data as [|raw rest IH]; intros acc log; cbn [process_posts_loop].
  - cbn. now rewrite !app_nil_r.
  - pose proof (Post_of_record_cases raw) as H. unfold post_line.
    destruct (Post_of_record raw) as [p|key].
    + destruct H as (Hc & Hm & Hi). rewrite IH. cbn [omap list_omap map].
      rewrite Hc, Hm, Hi. cbn. now rewrite <- !app_assoc.
    + destruct H as (Hc & Hm). rewrite IH. cbn [omap list_omap map].
      rewrite Hc, Hm. now rewrite <- !app_assoc.
Qed.

Lemma process_posts_eq (posts_data : list RawRecord) :
  process_posts posts_data
  = (omap complete_post posts_data,
     [(INFO, StartingPosts (length posts_data))]
       ++ map post_line posts_data
       ++ [(INFO, FinishedPosts (length (omap complete_post posts_data)))]).
Proof.
  unfold process_posts. rewrite process_posts_loop_spec. cbn [app]. reflexivity.
Qed.

(** X1.  [process_posts] keeps exactly the records that have the four keys
    [id], [userId], [title] and [body], in input order, and copies their
    values as they are: a key whose value is null or of another type than
    annotated still counts.  Every other record is dropped.  The log has one
    line per record, in input order, between the opening and the closing
    line; the line of a dropped record names the first of the four keys that
    is missing. *)
Theorem process_posts_spec (posts_data : list RawRecord) :
  process_posts posts_data
  = (omap complete_post posts_data,
     [(INFO, StartingPosts (length posts_data))]
       ++ map post_line posts_data
       ++ [(INFO, FinishedPosts (length (omap complete_post posts_data)))])
  /\ (length (fst (process_posts posts_data)) <= length posts_data)%nat
  /\ (forall p, p ∈ fst (process_posts posts_data) ->
        exists raw, raw ∈ posts_data
          /\ raw !! "id" = Some (obj_id p) /\ raw !! "userId" = Some (obj_user_id p)
          /\ raw !! "title" = Some (obj_title p) /\ raw !! "body" = Some (obj_body p)).
Proof.
  pose proof (process_posts_eq posts_data) as E.
  split; [exact E|]. rewrite E. cbn [fst].
  split.
  { clear E. induction posts_data as [|raw rest IH]; cbn; [lia|].
    destruct (complete_post raw); cbn; lia. }
  intros p Hp. apply list_elem_of_omap in Hp as (raw & Hraw & Hc).
  exists raw. split; [exact Hraw|].
  unfold complete_post in Hc.
  destruct (raw !! "id"), (raw !! "userId"), (raw !! "title"), (raw !! "body");
    cbn in Hc; try discriminate.
  injection Hc as <-. auto.
Qed.

(** X2.  Both normalisers work record by record: normalising two batches
    one after the other gives the same users and the same posts as
    normalising their concatenation, so the pages of a collection can be
    processed separately. *)
Theorem normalisers_distribute (V : Pydantic) (batch1 batch2 : list RawRecord) :
  fst (process_users V (batch1 ++ batch2))
  = fst (process_users V batch1) ++ fst (process_users V batch2)
  /\ fst (process_posts (batch1 ++ batch2))
     = fst (process_posts batch1) ++ fst (process_posts batch2).
Proof.
  split.
  - now rewrite !process_users_fst, omap_app.
  - rewrite !process_posts_eq. cbn [fst]. apply omap_app.
Qed.

End DataProcessor.

(* ===================================================================== *)
(** * [src/utils/helpers.py] *)
(* ===================================================================== *)

Module Helpers.
Import Models.

(** [a or b] on integers: [b] when [a] is zero. *)
Definition int_or (a b : Z) : Z := if (a =? 0)%Z then b else a.

(** The builtin [sorted(xs, key=key, reverse=True)].  Python documents it as
    stable, also with [reverse=True]: elements with equal keys keep the order
    of the input.  It is given as the insertion sort with that behaviour: an
    element is placed after the elements of strictly larger key and before
    all the others that are already placed, which come later in the input. *)
Fixpoint insert_desc {A : Type} (key : A -> Z) (x : A) (placed : list A) : list A :=
  match placed with
  | [] => [x]
  | y :: rest =>
      if (key x <? key y)%Z then y :: insert_desc key x rest else x :: placed
  end.

Fixpoint sorted_reverse {A : Type} (key : A -> Z) (xs : list A) : list A :=
  match xs with
  | [] => []
  | x :: rest => insert_desc key x (sorted_reverse key rest)
  end.

(** [sort_users_by_post_count]. *)
Definition sort_users_by_post_count (users : list User) : list User :=
  sorted_reverse (fun x => int_or (post_count x) 0) users.

(** Non-increasing order of [post_count]. *)
Definition count_ge (a b : User) : Prop := (post_count b <= post_count a)%Z.

Section InsertionSort.
Context {A : Type} (key : A -> Z).

Lemma insert_desc_perm (x : A) (l : list A) : insert_desc key x l ≡ₚ x :: l.
Proof.
  induction l as [|y l IH]; simpl; [reflexivity|].
  destruct (key x <? key y)%Z; [|reflexivity].
  rewrite IH. apply Permutation_swap.
Qed.

Lemma sorted_reverse_perm (l : list A) : sorted_reverse key l ≡ₚ l.
Proof.
  induction l as [|x l IH]; simpl; [reflexivity|].
  now rewrite insert_desc_perm, IH.
Qed.

Lemma insert_desc_sorted (x : A) (l : list A) :
  StronglySorted (fun a b => (key b <= key a)%Z) l ->
  StronglySorted (fun a b => (key b <= key a)%Z) (insert_desc key x l).
Proof.
  induction l as [|y l IH]; simpl; intros Hs.
  - constructor; constructor.
  - inversion Hs as [|? ? Hl Hy]; subst.
    destruct (Z.ltb_spec (key x) (key y)) as [Hlt|Hge].
    + constructor; [apply IH, Hl|].
      rewrite insert_desc_perm. constructor; [lia|exact Hy].
    + constructor; [exact Hs|].
      constructor; [exact Hge|].
      eapply Forall_impl; [exact Hy|]. simpl. intros z Hz. lia.
Qed.

Lemma sorted_reverse_sorted (l : list A) :
  StronglySorted (fun a b => (key b <= key a)%Z) (sorted_reverse key l).
Proof.
  induction l as [|x l IH]; simpl; [constructor|].
  apply insert_desc_sorted, IH.
Qed.

(** Insertion never carries an element over another one of equal key. *)
Lemma insert_desc_class (k : Z) (x : A) (l : list A) :
  filter (fun a => key a = k) (insert_desc key x l)
  = filter (fun a => key a = k) (x :: l).
Proof.
  induction l as [|y l IH]; simpl; [reflexivity|].
  destruct (Z.ltb_spec (key x) (key y)) as [Hlt|Hge]; [|reflexivity].
  rewrite (filter_cons _ y), IH, !(filter_cons _ x), (filter_cons _ y).
  destruct (decide (key y = k)) as [Ey|Ey]; [|reflexivity].
  destruct (decide (key x = k)) as [Ex|Ex]; [lia|reflexivity].
Qed.

Lemma sorted_reverse_class (k : Z) (l : list A) :
  filter (fun a => key a = k) (sorted_reverse key l)
  = filter (fun a => key a = k) l.
Proof.
  induction l as [|x l IH]; simpl; [reflexivity|].
  now rewrite insert_desc_class, !filter_cons, IH.
Qed.

End InsertionSort.

Lemma int_or_zero (c : Z) : int_or c 0 = c.
Proof. unfold int_or. destruct (Z.eqb_spec c 0); congruence. Qed.

(** C6.  [sort_users_by_post_count] is a stable descending sort: its output
    is a permutation of the input, in non-increasing order of [post_count],
    and for every count the users with that count appear in the output in the
    order they have in the input.  Users with counts 3, 7, 3 come out as
    7, 3, 3, the first of the two users with count 3 still first. *)
Theorem sort_users_by_post_count_stable (users : list User) :
  let sorted := sort_users_by_post_count users in
  sorted ≡ₚ users
  /\ StronglySorted count_ge sorted
  /\ (forall k, filter (fun u => post_count u = k) sorted
                = filter (fun u => post_count u = k) users)
  /\ (forall a b c,
        post_count a = 3%Z -> post_count b = 7%Z -> post_count c = 3%Z ->
        sort_users_by_post_count [a; b; c] = [b; a; c]).
Proof.
  intros sorted. subst sorted. unfold sort_users_by_post_count.
  split; [apply sorted_reverse_perm|].
  split.
  { pose proof (sorted_reverse_sorted (fun x => int_or (post_count x) 0) users) as H.
    induction H as [|u l Hl IH Hu]; constructor; [exact IH|].
    eapply Forall_impl; [exact Hu|]. simpl. intros v.
    rewrite !int_or_zero. unfold count_ge. lia. }
  split.
  { intros k.
    pose proof (sorted_reverse_class (fun x => int_or (post_count x) 0) k users) as H.
    erewrite (list_filter_iff _ (fun a => int_or (post_count a) 0 = k)).
    - erewrite (list_filter_iff _ (fun a => int_or (post_count a) 0 = k) users).
      + exact H.
      + intros u. now rewrite int_or_zero.
    - intros u. now rewrite int_or_zero. }
  intros a b c Ha Hb Hc. cbn [sorted_reverse insert_desc].
  rewrite !int_or_zero, Hb, Hc. cbn [Z.ltb Z.compare Pos.compare Pos.compare_cont insert_desc].
  rewrite !int_or_zero, Ha, Hb, ?Hc. reflexivity.
Qed.

Lemma sort_users_by_post_count_stable_witness :
  let a := mkUser 1 "A" "a" "a@x" [] 3 0 in
  let b := mkUser 2 "B" "b" "b@x" [] 7 0 in
  let c := mkUser 3 "C" "c" "c@x" [] 3 0 in
  sort_users_by_post_count [a; b; c] = [b; a; c]
  /\ map post_count (sort_users_by_post_count [a; b; c]) = [7%Z; 3%Z; 3%Z].
Proof.
  cbv zeta. split.
  - apply (sort_users_by_post_count_stable []); reflexivity.
  - reflexivity.
Defined.

(** ** The other helpers *)

(** [filter_active_users]: [user.post_count and user.post_count >= min_posts]
    holds when the count is not zero and reaches [min_posts]. *)
Definition filter_active_users (users : list User) (min_posts : Z) : list User :=
  filter (fun user => post_count user <> 0%Z /\ (min_posts <= post_count user)%Z) users.

(** [get_average_post_length]: bodies are measured as they are. *)
Definition get_average_post_length (F : PyFloat.Arith) (posts : list Post) : Q :=
  match posts with
  | [] => 0%Q
  | _ :: _ =>
      PyFloat.truediv F (Py.sum (map (fun post => Py.len (body post)) posts))
        (Z.of_nat (length posts))
  end.

Lemma insert_desc_head {A : Type} (key : A -> Z) (x : A) (l : list A) :
  Forall (fun y => (key y <= key x)%Z) l -> insert_desc key x l = x :: l.
Proof.
  destruct l as [|y l]; [reflexivity|]. intros H. cbn [insert_desc].
  apply Forall_cons in H as [Hy _].
  now rewrite (proj2 (Z.ltb_ge _ _)) by exact Hy.
Qed.

Lemma sorted_reverse_fixed {A : Type} (key : A -> Z) (l : list A) :
  StronglySorted (fun a b => (key b <= key a)%Z) l -> sorted_reverse key l = l.
Proof.
  induction 1 as [|x l Hl IH Hx]; cbn [sorted_reverse]; [reflexivity|].
  rewrite IH. now apply insert_desc_head.
Qed.

(** Filtering a sorted list before or after an insertion. *)
Lemma insert_desc_filter {A : Type} (key : A -> Z) (P : A -> Prop)
    `{!forall a, Decision (P a)} (x : A) (l : list A) :
  StronglySorted (fun a b => (key b <= key a)%Z) l ->
  filter P (insert_desc key x l)
  = if decide (P x) then insert_desc key x (filter P l) else filter P l.
Proof.
  induction 1 as [|y l Hl IH Hy]; cbn [insert_desc].
  - rewrite filter_cons, filter_nil. now destruct (decide (P x)).
  - destruct (Z.ltb_spec (key x) (key y)) as [E|E].
    + rewrite !(filter_cons _ y), IH.
      destruct (decide (P y)), (decide (P x)); cbn [insert_desc];
        rewrite ?(proj2 (Z.ltb_lt _ _) E); reflexivity.
    + rewrite (filter_cons _ x). destruct (decide (P x)) as [Hx|Hx]; [|reflexivity].
      symmetry. apply insert_desc_head.
      apply Forall_forall. intros z Hz.
      apply list_elem_of_filter in Hz as [_ Hz].
      apply elem_of_cons in Hz as [->|Hz]; [exact E|].
      rewrite Forall_forall in Hy. specialize (Hy z Hz). lia.
Qed.

Lemma sorted_reverse_filter {A : Type} (key : A -> Z) (P : A -> Prop)
    `{!forall a, Decision (P a)} (l : list A) :
  filter P (sorted_reverse key l) = sorted_reverse key (filter P l).
Proof.
  induction l as [|x l IH]; cbn [sorted_reverse]; [reflexivity|].
  rewrite insert_desc_filter by apply sorted_reverse_sorted.
  rewrite filter_cons, IH. now destruct (decide (P x)).
Qed.

(** X3.  [filter_active_users] keeps, in input order, exactly the users
    whose [post_count] is not zero and at least [min_posts]: a user without
    posts is dropped whatever the threshold, also for [min_posts <= 0].
    Raising the threshold afterwards gives what the higher threshold gives
    directly. *)
Theorem filter_active_users_spec (users : list User) (min_posts : Z) :
  sublist (filter_active_users users min_posts) users
  /\ (forall u, u ∈ filter_active_users users min_posts
                <-> u ∈ users /\ post_count u <> 0%Z /\ (min_posts <= post_count u)%Z)
  /\ Forall (fun u => post_count u <> 0%Z) (filter_active_users users min_posts)
  /\ (forall higher, (min_posts <= higher)%Z ->
        filter_active_users (filter_active_users users min_posts) higher
        = filter_active_users users higher).
Proof.
  unfold filter_active_users.
  split; [apply sublist_filter|].
  split; [intros u; rewrite list_elem_of_filter; tauto|].
  split.
  { apply Forall_forall. intros u Hu. apply list_elem_of_filter in Hu. tauto. }
  intros higher Hle. rewrite list_filter_filter.
  apply list_filter_iff. intros u. lia.
Qed.

(** X4.  Filtering the active users and sorting by post count commute:
    the active users of the sorted list are the sorted active users. *)
Theorem filter_active_users_sorted (users : list User) (min_posts : Z) :
  filter_active_users (sort_users_by_post_count users) min_posts
  = sort_users_by_post_count (filter_active_users users min_posts).
Proof.
  unfold filter_active_users, sort_users_by_post_count.
  apply sorted_reverse_filter.
Qed.

(** X5.  Sorting is idempotent, and a list that is already in
    non-increasing order of [post_count] is returned as it is. *)
Theorem sort_users_by_post_count_idempotent (users : list User) :
  sort_users_by_post_count (sort_users_by_post_count users)
  = sort_users_by_post_count users
  /\ (StronglySorted count_ge users -> sort_users_by_post_count users = users).
Proof.
  unfold sort_users_by_post_count. split.
  - apply sorted_reverse_fixed, sorted_reverse_sorted.
  - intros H. apply sorted_reverse_fixed.
    induction H as [|u l Hl IH Hu]; constructor; [exact IH|].
    eapply Forall_impl; [exact Hu|]. simpl. intros v.
    rewrite !int_or_zero. unfold count_ge. lia.
Qed.

Lemma sort_users_by_post_count_idempotent_witness :
  let a := mkUser 1 "A" "a" "a@x" [] 7 0 in
  let b := mkUser 2 "B" "b" "b@x" [] 3 0 in
  sort_users_by_post_count [a; b] = [a; b].
Proof.
  cbv zeta.
  apply (sort_users_by_post_count_idempotent
           [mkUser 1 "A" "a" "a@x" [] 7 0; mkUser 2 "B" "b" "b@x" [] 3 0]).
  repeat constructor; unfold count_ge; simpl; lia.
Defined.

(** X6.  The first user of the sorted list has the largest [post_count]
    of all users, and the sorted list is empty only for an empty input. *)
Theorem sort_users_by_post_count_top (users : list User) :
  (sort_users_by_post_count users = [] <-> users = [])
  /\ (forall top rest, sort_users_by_post_count users = top :: rest ->
        top ∈ users
        /\ forall u, u ∈ users -> (post_count u <= post_count top)%Z).
Proof.
  unfold sort_users_by_post_count.
  pose proof (sorted_reverse_perm (fun x => int_or (post_count x) 0) users) as Hperm.
  pose proof (sorted_reverse_sorted (fun x => int_or (post_count x) 0) users) as Hsorted.
  split.
  - split; intros H.
    + rewrite H in Hperm. now apply Permutation_nil in Hperm.
    + now subst.
  - intros top rest E. rewrite E in Hperm, Hsorted.
    split; [rewrite <- Hperm; left|].
    intros u Hu. rewrite <- Hperm in Hu.
    apply elem_of_cons in Hu as [->|Hu]; [lia|].
    apply StronglySorted_inv in Hsorted as [_ Hall].
    rewrite Forall_forall in Hall. specialize (Hall u Hu). simpl in Hall.
    now rewrite !int_or_zero in Hall.
Qed.

Lemma sort_users_by_post_count_top_witness :
  let a := mkUser 1 "A" "a" "a@x" [] 3 0 in
  let b := mkUser 2 "B" "b" "b@x" [] 7 0 in
  (post_count a <= post_count b)%Z /\ b ∈ [a; b].
Proof.
  cbv zeta.
  destruct (sort_users_by_post_count_top
              [mkUser 1 "A" "a" "a@x" [] 3 0; mkUser 2 "B" "b" "b@x" [] 7 0])
    as [_ H].
  destruct (H (mkUser 2 "B" "b" "b@x" [] 7 0) [mkUser 1 "A" "a" "a@x" [] 3 0] eq_refl)
    as [Hin Hmax].
  split; [apply Hmax; left|exact Hin].
Defined.

End Helpers.

(* ===================================================================== *)
(** * [src/api/client.py] *)
(* ===================================================================== *)

Module Client.
Import Py.

(** ** The world the client acts on *)

(** Values held by a parameter dict. *)
Inductive PyVal : Type :=
| VInt (n : Z)
| VStr (s : string).

(** A parameter dict is a mutable object: it lives on the heap and is passed
    around by reference. *)
Abbreviation Params := (gmap string PyVal).
Definition loc : Type := positive.

(** What [session.get(url, params=params, timeout=timeout)] puts on the wire:
    the query is the content of the dict at the moment of the call ([None]
    when [params] is [None]). *)
Record Request : Type := mkRequest {
  url : string;
  query : option Params;
  req_timeout : Z
}.

(** How one attempt ends: [session.get] raises (connection, timeout), or a
    response comes back whose [raise_for_status] raises, or a 2xx response
    comes back whose [json()] is [body], or a 2xx response comes back whose
    body is not JSON, so that [json()] raises
    [requests.exceptions.JSONDecodeError].  All three exceptions are
    [requests.exceptions.RequestException]s (the last one since
    requests 2.27). *)
Inductive Outcome (Body : Type) : Type :=
| ConnectionError
| HTTPError (status : Z)
| OK (body : Body)
| InvalidJSON.
Arguments ConnectionError {Body}.
Arguments HTTPError {Body} status.
Arguments OK {Body} body.
Arguments InvalidJSON {Body}.

(** The attempt raised before [raise_for_status] returned: no response, or
    a response with an error status. *)
Definition is_failure {Body : Type} (o : Outcome Body) : bool :=
  match o with
  | ConnectionError | HTTPError _ => true
  | OK _ | InvalidJSON => false
  end.

(** A 2xx response came back, so [raise_for_status] returned. *)
Definition answered {Body : Type} (o : Outcome Body) : bool :=
  match o with
  | OK _ | InvalidJSON => true
  | ConnectionError | HTTPError _ => false
  end.

(** The attempt yields a decoded body. *)
Definition gives_body {Body : Type} (o : Outcome Body) : bool :=
  match o with
  | OK _ => true
  | ConnectionError | HTTPError _ | InvalidJSON => false
  end.

(** The environment: what the network answers to the [n]-th request sent
    since the start of the run, and whether appending to
    [api_performance.log] works at that moment ([open]/[write] raise
    [OSError] when it does not). *)
Record Env (Body : Type) : Type := mkEnv {
  transport : nat -> Request -> Outcome Body;
  metrics_writable : nat -> bool
}.
Arguments mkEnv {Body} transport metrics_writable.
Arguments transport {Body} e n request.
Arguments metrics_writable {Body} e n.

Record World : Type := mkWorld {
  heap : gmap loc Params;
  requests : list Request;
  sleeps : list Z;
  perf_log : list string
}.

Definition deref (w : World) (p : loc) : Params := default ∅ (heap w !! p).

Definition set_heap (h : gmap loc Params) (w : World) : World :=
  mkWorld h (requests w) (sleeps w) (perf_log w).
Definition sent (r : Request) (w : World) : World :=
  mkWorld (heap w) (requests w ++ [r]) (sleeps w) (perf_log w).
Definition slept (seconds : Z) (w : World) : World :=
  mkWorld (heap w) (requests w) (sleeps w ++ [seconds]) (perf_log w).
Definition logged (endpoint : string) (w : World) : World :=
  mkWorld (heap w) (requests w) (sleeps w) (perf_log w ++ [endpoint]).

(** ** The client *)

(** The two settings [__init__] reads ([src/config.py]). *)
Record Settings : Type := mkSettings {
  API_TIMEOUT : Z;
  API_MAX_RETRIES : Z
}.

Definition default_settings : Settings :=
  {| API_TIMEOUT := 30; API_MAX_RETRIES := 3 |}.

Record APIClient : Type := mkAPIClient {
  base_url : string;
  page_size : Z;
  max_pages : Z;
  timeout : Z;
  max_retries : Z
}.

(** [APIClient.__init__]. *)
Definition init (settings : Settings) (base : string) : APIClient :=
  {| base_url := base;
     page_size := 100;
     max_pages := 10;
     timeout := API_TIMEOUT settings;
     max_retries := API_MAX_RETRIES settings |}.

(** The request an attempt of [get] sends in world [w]. *)
Definition request_of (c : APIClient) (endpoint : string) (params : option loc)
    (w : World) : Request :=
  mkRequest (base_url c +:+ "/" +:+ endpoint) (params ≫= fun p => heap w !! p) (timeout c).

Section Get.
Context {Body : Type} (env : Env Body) (c : APIClient).

(** The [for attempt in range(self.max_retries)] loop of [get].  The
    index of an attempt in the environment is the number of requests sent
    before it.  When the loop runs out without returning or raising, the
    function returns [None].  [_log_performance_metrics] runs outside any
    handler for its own errors: an [OSError] it raises is not a
    [RequestException] and leaves [get].  It runs before
    [response.json()]: when that raises, the line is already written and
    the handler treats the attempt like any other failed one. *)
Fixpoint get_attempts (endpoint : string) (params : option loc)
    (attempts : list Z) (w : World) : result (option Body) * World :=
  match attempts with
  | [] => (Ret None, w)
  | attempt :: later =>
      let n := length (requests w) in
      let request := request_of c endpoint params w in
      let w := sent request w in
      match transport env n request with
      | OK body =>
          if metrics_writable env n
          then (Ret (Some body), logged endpoint w)
          else (Raise OSError, w)
      | InvalidJSON =>
          if metrics_writable env n
          then
            let w := logged endpoint w in
            if (attempt =? max_retries c - 1)%Z
            then (Raise APIError, w)
            else get_attempts endpoint params later (slept (2 ^ attempt) w)
          else (Raise OSError, w)
      | ConnectionError | HTTPError _ =>
          if (attempt =? max_retries c - 1)%Z
          then (Raise APIError, w)
          else get_attempts endpoint params later (slept (2 ^ attempt) w)
      end
  end.

(** [APIClient.get]. *)
Definition get (endpoint : string) (params : option loc) (w : World)
    : result (option Body) * World :=
  get_attempts endpoint params (range (max_retries c)) w.

End Get.

(** [params or {}]: the same object when it is a non-empty dict, a new
    empty dict otherwise. *)
Definition new_dict (w : World) : loc * World :=
  let p := fresh (dom (heap w)) in
  (p, set_heap (<[p := ∅]> (heap w)) w).

Definition or_empty_dict (params : option loc) (w : World) : loc * World :=
  match params with
  | Some p => if (size (deref w p) =? 0)%nat then new_dict w else (p, w)
  | None => new_dict w
  end.

(** [params.update({'_page': page, '_limit': self.page_size})], in place. *)
Definition page_query (c : APIClient) (page : Z) (d : Params) : Params :=
  <["_limit" := VInt (page_size c)]> (<["_page" := VInt page]> d).

Definition update_page (c : APIClient) (p : loc) (page : Z) (w : World) : World :=
  set_heap (<[p := page_query c page (deref w p)]> (heap w)) w.

Section GetPaginated.
Context {Rec : Type} (env : Env (list Rec)) (c : APIClient).

(** The [while page <= self.max_pages] loop of [get_paginated].  [fuel]
    bounds the number of iterations; [None] means it ran out, which
    [get_paginated_returns] below shows never happens with the fuel
    [get_paginated] gives. *)
Fixpoint paginate (endpoint : string) (fuel : nat) (page : Z)
    (params : option loc) (results : list Rec) (w : World)
    : option (result (list Rec) * World) :=
  match fuel with
  | O => None
  | S fuel =>
      if bool_decide (page <= max_pages c)%Z then
        let (p, w) := or_empty_dict params w in
        let w := update_page c p page w in
        match get env c endpoint (Some p) w with
        | (Ret response, w) =>
            match response with
            | None | Some [] => Some (Ret results, w)
            | Some ((_ :: _) as response) =>
                let results := results ++ response in
                if (Z.of_nat (length response) <? page_size c)%Z
                then Some (Ret results, w)
                else paginate endpoint fuel (page + 1) (Some p) results w
            end
        | (Raise APIError, w) => Some (Ret results, w)
        | (Raise e, w) => Some (Raise e, w)
        end
      else Some (Ret results, w)
  end.

(** [APIClient.get_paginated]. *)
Definition get_paginated (endpoint : string) (params : option loc) (w : World)
    : option (result (list Rec) * World) :=
  paginate endpoint (S (Z.to_nat (max_pages c))) 1 params [] w.

End GetPaginated.

(** ** Specification-side vocabulary *)

(** The entries the caller passed: those of the dict [params] refers to,
    none for [None]. *)
Definition caller_entries (params : option loc) (w : World) : Params :=
  match params with
  | Some p => deref w p
  | None => ∅
  end.

(** The request for one page, carrying the entries [d] besides the page
    number and the limit. *)
Definition page_request (c : APIClient) (endpoint : string) (page : Z)
    (d : Params) : Request :=
  mkRequest (base_url c +:+ "/" +:+ endpoint) (Some (page_query c page d)) (timeout c).

(** The requests of a run of pages that starts at [page]: [counts] gives,
    page after page, how many times the request of that page is sent. *)
Fixpoint sent_by_pages (c : APIClient) (endpoint : string) (d : Params) (page : Z)
    (counts : list nat) : list Request :=
  match counts with
  | [] => []
  | n :: counts =>
      replicate n (page_request c endpoint page d)
      ++ sent_by_pages c endpoint d (page + 1) counts
  end.

(** The backoff slept after the failed attempts [first .. first+n-1]. *)
Definition backoffs (first n : nat) : list Z :=
  map (fun i => (2 ^ Z.of_nat i)%Z) (seq first n).

(** World [w] after [n] more sendings of [request] and the sleeps [zs]. *)
Definition advance (w : World) (request : Request) (n : nat) (zs : list Z) : World :=
  mkWorld (heap w) (requests w ++ replicate n request) (sleeps w ++ zs) (perf_log w).

(** ** The single request: [get] *)

Section GetFacts.
Context {Body : Type} (env : Env Body) (c : APIClient).
Implicit Types (w : World) (endpoint : string) (params : option loc).

Lemma advance_0 w request : advance w request 0 [] = w.
Proof. destruct w. unfold advance. simpl. now rewrite !app_nil_r. Qed.

Lemma advance_step w request n first :
  advance (slept (2 ^ Z.of_nat first) (sent request w)) request n (backoffs (S first) n)
  = advance w request (S n) (backoffs first (S n)).
Proof.
  unfold advance, slept, sent, backoffs. simpl.
  now rewrite <- !app_assoc.
Qed.

(** A run of [j] failed attempts that are not the last one: each sends the
    request and sleeps [2 ^ attempt]; the loop goes on with the attempts
    that are left. *)
Lemma get_attempts_failures endpoint params (j : nat) :
  forall (first len : nat) w,
    (j < len)%nat ->
    Z.of_nat (first + len) = max_retries c ->
    (forall i, (i < j)%nat ->
       is_failure (transport env (length (requests w) + i)
                     (request_of c endpoint params w)) = true) ->
    get_attempts env c endpoint params (map Z.of_nat (seq first len)) w
    = get_attempts env c endpoint params (map Z.of_nat (seq (first + j) (len - j)))
        (advance w (request_of c endpoint params w) j (backoffs first j)).
Proof.
  induction j as [|j IH]; intros first len w Hj Hlast Hfail.
  - now rewrite advance_0, Nat.add_0_r, Nat.sub_0_r.
  - destruct len as [|len]; [lia|].
    cbn [seq map get_attempts].
    pose proof (Hfail 0%nat ltac:(lia)) as H0. rewrite Nat.add_0_r in H0.
    assert (Hnotlast : (Z.of_nat first =? max_retries c - 1)%Z = false)
      by (apply Z.eqb_neq; lia).
    assert (Hrest :
      get_attempts env c endpoint params (map Z.of_nat (seq (S first) len))
        (slept (2 ^ Z.of_nat first) (sent (request_of c endpoint params w) w))
      = get_attempts env c endpoint params
          (map Z.of_nat (seq (first + S j) (S len - S j)))
          (advance w (request_of c endpoint params w) (S j) (backoffs first (S j)))).
    { rewrite (IH (S first) len); [|lia|lia|].
      - rewrite advance_step. do 3 f_equal; lia.
      - intros i Hi. cbn [requests slept sent]. rewrite length_app. simpl.
        replace (length (requests w) + 1 + i)%nat
          with (length (requests w) + S i)%nat by lia.
        apply (Hfail (S i)). lia. }
    destruct (transport env (length (requests w)) (request_of c endpoint params w));
      [| |discriminate H0|discriminate H0]; rewrite Hnotlast; exact Hrest.
Qed.

(** The last attempt fails: [APIError], no sleep. *)
Lemma get_attempts_last_failure endpoint params (first : nat) w :
  Z.of_nat first = (max_retries c - 1)%Z ->
  is_failure (transport env (length (requests w))
                (request_of c endpoint params w)) = true ->
  get_attempts env c endpoint params (map Z.of_nat (seq first 1)) w
  = (Raise APIError, sent (request_of c endpoint params w) w).
Proof.
  intros Hlast Hfail. cbn [seq map get_attempts].
  rewrite Hlast, Z.eqb_refl.
  now destruct (transport env _ _); [| |discriminate Hfail|discriminate Hfail].
Qed.

(** An attempt that gets a 2xx response ends the loop: with the body when
    the metric line could be written, with [OSError] when it could not. *)
Lemma get_attempts_response endpoint params (first len : nat) w (body : Body) :
  transport env (length (requests w)) (request_of c endpoint params w) = OK body ->
  get_attempts env c endpoint params (map Z.of_nat (seq first (S len))) w
  = if metrics_writable env (length (requests w))
    then (Ret (Some body), logged endpoint (sent (request_of c endpoint params w) w))
    else (Raise OSError, sent (request_of c endpoint params w) w).
Proof. intros H. cbn [seq map get_attempts]. now rewrite H. Qed.

Lemma advance_sent w request n zs :
  sent request (advance w request n zs) = advance w request (n + 1) zs.
Proof.
  unfold sent, advance. simpl. f_equal.
  rewrite <- app_assoc. f_equal.
  now rewrite replicate_add.
Qed.

(** [k] failures followed by a 2xx response, seen from [get]. *)
Lemma get_response_after endpoint params w (k : nat) (body : Body) :
  (k < Z.to_nat (max_retries c))%nat ->
  (forall i, (i < k)%nat ->
     is_failure (transport env (length (requests w) + i)
                   (request_of c endpoint params w)) = true) ->
  transport env (length (requests w) + k) (request_of c endpoint params w) = OK body ->
  get env c endpoint params w
  = let w' := advance w (request_of c endpoint params w) (k + 1) (backoffs 0 k) in
    if metrics_writable env (length (requests w) + k)
    then (Ret (Some body), logged endpoint w')
    else (Raise OSError, w').
Proof.
  intros Hk Hfail Hok. unfold get, range.
  rewrite (get_attempts_failures endpoint params k 0 (Z.to_nat (max_retries c)) w);
    [|exact Hk|simpl; lia|exact Hfail].
  destruct (Z.to_nat (max_retries c) - k)%nat as [|len] eqn:E; [lia|].
  set (wk := advance w (request_of c endpoint params w) k (backoffs 0 k)).
  assert (Hreq : request_of c endpoint params wk = request_of c endpoint params w)
    by reflexivity.
  assert (Hlen : length (requests wk) = (length (requests w) + k)%nat).
  { unfold wk, advance. simpl. now rewrite length_app, length_replicate. }
  rewrite (get_attempts_response endpoint params (0 + k) len wk body);
    rewrite Hreq, Hlen; [|exact Hok].
  unfold wk. now rewrite advance_sent.
Qed.

(** Every attempt fails: [max_retries] sendings, a sleep after each but
    the last, then [APIError]. *)
Lemma get_exhausted endpoint params w :
  (1 <= max_retries c)%Z ->
  let request := request_of c endpoint params w in
  let n := Z.to_nat (max_retries c) in
  (forall i, (i < n)%nat ->
     is_failure (transport env (length (requests w) + i) request) = true) ->
  get env c endpoint params w
  = (Raise APIError, advance w request n (backoffs 0 (n - 1))).
Proof.
  intros Hpos request n Hfail. unfold get, range. fold n.
  rewrite (get_attempts_failures endpoint params (n - 1) 0 n w);
    [|lia|simpl; lia|intros i Hi; apply Hfail; lia].
  replace (n - (n - 1))%nat with 1%nat by lia.
  set (wk := advance w (request_of c endpoint params w) (n - 1) (backoffs 0 (n - 1))).
  assert (Hlen : length (requests wk) = (length (requests w) + (n - 1))%nat).
  { unfold wk, advance. simpl. now rewrite length_app, length_replicate. }
  rewrite get_attempts_last_failure.
  - change (request_of c endpoint params wk) with request.
    unfold wk. fold request. rewrite advance_sent. do 2 f_equal. lia.
  - simpl. lia.
  - rewrite Hlen. apply Hfail. lia.
Qed.

(** C5.  With [max_retries >= 1]: when every attempt of a [get] fails at
    transport level (connection error, timeout, or a non-2xx status), [get]
    sends the request exactly [max_retries] times, sleeps [2 ^ attempt]
    seconds after each attempt but the last ([1, 2, 4, ...], attempts counted
    from 0), and raises [APIError].  When the first [k] attempts fail and
    attempt [k] succeeds (a 2xx response whose metric line is written), [get]
    returns the JSON body of that response after exactly [k + 1] sendings
    and the [k] sleeps [2 ^ 0 .. 2 ^ (k - 1)]: no further attempt is made. *)
Theorem get_retry_spec endpoint params w :
  (1 <= max_retries c)%Z ->
  let request := request_of c endpoint params w in
  let n := Z.to_nat (max_retries c) in
  ((forall i, (i < n)%nat ->
      is_failure (transport env (length (requests w) + i) request) = true) ->
   get env c endpoint params w
   = (Raise APIError, advance w request n (backoffs 0 (n - 1))))
  /\ (forall (k : nat) (body : Body),
        (k < n)%nat ->
        (forall i, (i < k)%nat ->
           is_failure (transport env (length (requests w) + i) request) = true) ->
        transport env (length (requests w) + k) request = OK body ->
        metrics_writable env (length (requests w) + k) = true ->
        get env c endpoint params w
        = (Ret (Some body), logged endpoint (advance w request (k + 1) (backoffs 0 k)))).
Proof.
  intros Hpos request n. split.
  - intros Hfail. now apply get_exhausted.
  - intros k body Hk Hfail Hok Hmetric.
    rewrite (get_response_after endpoint params w k body Hk Hfail Hok).
    cbv zeta. now rewrite Hmetric.
Qed.

(** C9, as the code has it.  [get] returns the body of a 2xx response only
    when the metric line of that attempt is written.  When writing it fails,
    the [OSError] leaves [get]: the call raises, the body is not returned,
    and no further attempt is made. *)
Theorem get_metrics_failure_propagates endpoint params w (k : nat) (body : Body) :
  (k < Z.to_nat (max_retries c))%nat ->
  let request := request_of c endpoint params w in
  (forall i, (i < k)%nat ->
     is_failure (transport env (length (requests w) + i) request) = true) ->
  transport env (length (requests w) + k) request = OK body ->
  (metrics_writable env (length (requests w) + k) = false ->
   get env c endpoint params w
   = (Raise OSError, advance w request (k + 1) (backoffs 0 k)))
  /\ (metrics_writable env (length (requests w) + k) = true ->
      get env c endpoint params w
      = (Ret (Some body), logged endpoint (advance w request (k + 1) (backoffs 0 k))))
  /\ (fst (get env c endpoint params w) = Ret (Some body)
      <-> metrics_writable env (length (requests w) + k) = true).
Proof.
  intros Hk request Hfail Hok.
  rewrite (get_response_after endpoint params w k body Hk Hfail Hok).
  cbv zeta. fold request.
  destruct (metrics_writable env (length (requests w) + k)); simpl.
  - repeat split; congruence.
  - repeat split; congruence.
Qed.

End GetFacts.

(** [get] changes no dict, and what it sends is the same request each time. *)
Lemma request_of_heap (c : APIClient) (endpoint : string) (params : option loc)
    (w1 w2 : World) :
  heap w1 = heap w2 ->
  request_of c endpoint params w1 = request_of c endpoint params w2.
Proof. intros E. unfold request_of. now rewrite E. Qed.





(** ** The page loop: [get_paginated] *)

Lemma page_query_overwrites (c : APIClient) (k j : Z) (d : Params) :
  page_query c k (page_query c j d) = page_query c k d.
Proof.
  unfold page_query.
  rewrite (insert_insert_ne _ "_page" "_limit") by discriminate.
  now rewrite !insert_insert_eq.
Qed.

Lemma page_query_non_empty (c : APIClient) (k : Z) (d : Params) :
  page_query c k d <> ∅.
Proof. apply insert_non_empty. Qed.

(** What [params = params or {}] followed by [params.update(...)] leaves:
    the dict in use holds the caller's entries and the two page entries; it
    is the caller's own dict when that one is non-empty, a new one otherwise;
    no other dict is touched. *)
Lemma prepare_spec (c : APIClient) (params : option loc) (w w0 : World)
    (page : Z) (p : loc) :
  or_empty_dict params w = (p, w0) ->
  let w1 := update_page c p page w0 in
  let d := caller_entries params w in
  heap w1 !! p = Some (page_query c page d)
  /\ (forall q, q <> p -> heap w1 !! q = heap w !! q)
  /\ requests w1 = requests w
  /\ sleeps w1 = sleeps w
  /\ ((params = Some p /\ heap w !! p = Some d /\ d <> ∅)
      \/ (d = ∅ /\ heap w !! p = None)).
Proof.
  intros Hp w1 d.
  assert (Hnew : d = ∅ -> new_dict w = (p, w0) ->
            heap w1 !! p = Some (page_query c page d)
            /\ (forall q, q <> p -> heap w1 !! q = heap w !! q)
            /\ requests w1 = requests w
            /\ sleeps w1 = sleeps w
            /\ ((params = Some p /\ heap w !! p = Some d /\ d <> ∅)
                \/ (d = ∅ /\ heap w !! p = None))).
  { intros Hd E. unfold new_dict in E. injection E as <- <-.
    subst w1. unfold update_page, deref, set_heap. cbn [heap requests sleeps].
    rewrite !lookup_insert_eq. cbn [default]. rewrite Hd.
    split; [reflexivity|].
    split; [intros q Hq; now rewrite !lookup_insert_ne by congruence|].
    split; [reflexivity|]. split; [reflexivity|].
    right. split; [reflexivity|].
    apply not_elem_of_dom, is_fresh. }
  unfold or_empty_dict in Hp. destruct params as [p0|].
  - destruct (Nat.eqb_spec (size (deref w p0)) 0) as [E|E].
    + apply Hnew; [|exact Hp]. now apply map_size_empty_iff.
    + injection Hp as <- <-.
      assert (Hd : heap w !! p0 = Some d).
      { subst d. unfold caller_entries, deref in *.
        destruct (heap w !! p0); [reflexivity|]. exfalso. apply E. apply map_size_empty. }
      subst w1. unfold update_page, deref, set_heap. cbn [heap requests sleeps].
      rewrite lookup_insert_eq, Hd. cbn [default].
      split; [reflexivity|].
      split; [intros q Hq; now rewrite lookup_insert_ne by congruence|].
      split; [reflexivity|]. split; [reflexivity|].
      left. split; [reflexivity|]. split; [reflexivity|].
      now apply map_size_non_empty_iff.
  - apply Hnew; [reflexivity|exact Hp].
Qed.

Lemma request_of_page (c : APIClient) (endpoint : string) (p : loc) (w : World)
    (page : Z) (d : Params) :
  heap w !! p = Some (page_query c page d) ->
  request_of c endpoint (Some p) w = page_request c endpoint page d.
Proof. intros H. unfold request_of, page_request. cbn [mbind option_bind]. now rewrite H. Qed.

Section GetPaginatedFacts.
Context {Rec : Type} (env : Env (list Rec)) (c : APIClient).
Implicit Types (w : World) (endpoint : string) (params : option loc).

(** With fuel beyond the number of pages that are left the loop ends, and
    what it ends with is never an [APIError]. *)
Lemma paginate_returns endpoint (fuel : nat) :
  forall page params (results : list Rec) w,
    (Z.to_nat (max_pages c + 1 - page) < fuel)%nat ->
    exists r w',
      paginate env c endpoint fuel page params results w = Some (r, w')
      /\ r <> Raise APIError.
Proof.
  induction fuel as [|fuel IH]; intros page params results w Hfuel; [lia|].
  cbn [paginate]. case_bool_decide as Hpage.
  - destruct (or_empty_dict params w) as [p w0].
    destruct (get env c endpoint (Some p) (update_page c p page w0))
      as [[[[|x l]|]|e] w2].
    + eexists _, _. split; [reflexivity|discriminate].
    + destruct (Z.of_nat (length (x :: l)) <? page_size c)%Z.
      * eexists _, _. split; [reflexivity|discriminate].
      * apply IH. lia.
    + eexists _, _. split; [reflexivity|discriminate].
    + destruct e; eexists _, _; (split; [reflexivity|discriminate]).
  - eexists _, _. split; [reflexivity|discriminate].
Qed.

(** More fuel does not change what the loop returns. *)
Lemma paginate_fuel_mono endpoint (fuel : nat) :
  forall page params (results : list Rec) w out,
    paginate env c endpoint fuel page params results w = Some out ->
    paginate env c endpoint (S fuel) page params results w = Some out.
Proof.
  induction fuel as [|fuel IH]; intros page params results w out H; [discriminate|].
  cbn [paginate] in H. cbn [paginate]. case_bool_decide; [|exact H].
  destruct (or_empty_dict params w) as [p w0].
  destruct (get env c endpoint (Some p) (update_page c p page w0))
    as [[[[|x l]|]|e] w2]; try exact H.
  destruct (Z.of_nat (length (x :: l)) <? page_size c)%Z; [exact H|].
  apply IH in H. exact H.
Qed.

Lemma get_paginated_returns endpoint params w :
  exists r w',
    get_paginated env c endpoint params w = Some (r, w') /\ r <> Raise APIError.
Proof. unfold get_paginated. apply paginate_returns. lia. Qed.



(** One iteration whose request is answered at once by a 2xx response. *)
Lemma first_attempt_response endpoint params w w0 (p : loc) (page : Z)
    (body : list Rec) :
  (1 <= max_retries c)%Z ->
  or_empty_dict params w = (p, w0) ->
  let request := page_request c endpoint page (caller_entries params w) in
  transport env (length (requests w)) request = OK body ->
  metrics_writable env (length (requests w)) = true ->
  exists w2,
    get env c endpoint (Some p) (update_page c p page w0) = (Ret (Some body), w2)
    /\ heap w2 !! p = Some (page_query c page (caller_entries params w))
    /\ requests w2 = requests w ++ [request]
    /\ sleeps w2 = sleeps w.
Proof.
  intros Hretries Hp request Hok Hmetric.
  pose proof (prepare_spec c params w w0 page p Hp) as (Hcur & _ & Hreqs & Hsl & _).
  set (w1 := update_page c p page w0) in *.
  pose proof (request_of_page c endpoint p w1 page _ Hcur) as Hreq.
  fold request in Hreq.
  rewrite (get_response_after env c endpoint (Some p) w1 0 body);
    [|lia|intros i Hi; lia|now rewrite Nat.add_0_r, Hreq, Hreqs].
  cbv zeta. rewrite Nat.add_0_r, Hreqs, Hmetric.
  eexists. split; [reflexivity|].
  cbn [heap requests sleeps logged advance backoffs seq map replicate Nat.add].
  now rewrite Hreq, Hreqs, Hsl, app_nil_r.
Qed.

(** C3.  With [max_pages >= 1] and [max_retries >= 1]: when the request
    for page 1 is answered by a page of at least one and fewer than
    [page_size] records, [get_paginated] returns exactly the records of that
    page, and the request for page 1 is the only request it sends. *)
Theorem get_paginated_short_page endpoint params w (page1 : list Rec) :
  (1 <= max_pages c)%Z ->
  (1 <= max_retries c)%Z ->
  let request := page_request c endpoint 1 (caller_entries params w) in
  transport env (length (requests w)) request = OK page1 ->
  metrics_writable env (length (requests w)) = true ->
  page1 <> [] ->
  (Z.of_nat (length page1) < page_size c)%Z ->
  exists w',
    get_paginated env c endpoint params w = Some (Ret page1, w')
    /\ requests w' = requests w ++ [request]
    /\ sleeps w' = sleeps w.
Proof.
  intros Hpages Hretries request Hok Hmetric Hne Hshort.
  unfold get_paginated. cbn [paginate]. rewrite bool_decide_eq_true_2 by lia.
  destruct (or_empty_dict params w) as [p w0] eqn:Hp.
  destruct (first_attempt_response endpoint params w w0 p 1 page1 Hretries Hp Hok Hmetric)
    as (w2 & -> & _ & Hreqs & Hsl).
  destruct page1 as [|x l]; [congruence|].
  rewrite (proj2 (Z.ltb_lt _ _) Hshort).
  exists w2. now split.
Qed.

(** The calls of [get] that the page loop makes from [page] on, in world
    [w]: the [get] of each page returns, in turn, the next element of
    [pages], non-empty and not shorter than [page_size], so that the loop
    goes on; then the [get] of the following page raises [APIError], which
    leaves the world [w_end]. *)
Fixpoint fetched (endpoint : string) (page : Z) (params : option loc) (w : World)
    (pages : list (list Rec)) (w_end : World) : Prop :=
  let (p, wp) := or_empty_dict params w in
  match pages with
  | [] =>
      get env c endpoint (Some p) (update_page c p page wp) = (Raise APIError, w_end)
  | records :: pages =>
      exists w1,
        get env c endpoint (Some p) (update_page c p page wp) = (Ret (Some records), w1)
        /\ records <> []
        /\ (page_size c <= Z.of_nat (length records))%Z
        /\ fetched endpoint (page + 1) (Some p) w1 pages w_end
  end.

(** The loop appends the pages it fetched to what it had and returns that
    when a page is given up. *)
Lemma paginate_fetched endpoint (pages : list (list Rec)) :
  forall (fuel : nat) page params (results : list Rec) w w_end,
    (page + Z.of_nat (length pages) <= max_pages c)%Z ->
    (length pages < fuel)%nat ->
    fetched endpoint page params w pages w_end ->
    paginate env c endpoint fuel page params results w
    = Some (Ret (results ++ concat pages), w_end).
Proof.
  induction pages as [|records pages IH];
    intros fuel page params results w w_end Hpage Hfuel H;
    (destruct fuel as [|fuel]; [cbn in Hfuel; lia|]);
    cbn [paginate fetched length] in *;
    rewrite bool_decide_eq_true_2 by lia;
    destruct (or_empty_dict params w) as [p wp].
  - rewrite H. cbn [concat]. now rewrite app_nil_r.
  - destruct H as (w1 & -> & Hne & Hfull & H).
    destruct records as [|x l]; [congruence|].
    rewrite (proj2 (Z.ltb_ge _ _)) by lia.
    cbn [concat]. rewrite app_assoc. apply IH; [lia|lia|exact H].
Qed.

(** Pages answered at once, one request each, followed by a page all of
    whose attempts fail. *)
Lemma fetched_at_once endpoint (pages : list (list Rec)) :
  forall page params w,
    (1 <= max_retries c)%Z ->
    Forall (fun records => records <> []
                           /\ (page_size c <= Z.of_nat (length records))%Z) pages ->
    (forall (i : nat) records, pages !! i = Some records ->
       transport env (length (requests w) + i)
         (page_request c endpoint (page + Z.of_nat i) (caller_entries params w))
       = OK records
       /\ metrics_writable env (length (requests w) + i) = true) ->
    (forall j, (j < Z.to_nat (max_retries c))%nat ->
       is_failure (transport env (length (requests w) + length pages + j)
                     (page_request c endpoint (page + Z.of_nat (length pages))
                        (caller_entries params w))) = true) ->
    exists w_end, fetched endpoint page params w pages w_end.
Proof.
  induction pages as [|records pages IH]; intros page params w Hretries Hfull Hok Hfail;
    cbn [fetched]; destruct (or_empty_dict params w) as [p wp] eqn:Hp.
  - pose proof (prepare_spec c params w wp page p Hp) as (Hcur & _ & Hreqs & _).
    set (w1 := update_page c p page wp) in *.
    pose proof (request_of_page c endpoint p w1 page _ Hcur) as Hreq.
    rewrite (get_exhausted env c endpoint (Some p) w1 Hretries).
    + eexists. reflexivity.
    + intros j Hj. rewrite Hreq, Hreqs.
      specialize (Hfail j Hj). cbn [length] in Hfail.
      now rewrite Nat.add_0_r, Z.add_0_r in Hfail.
  - destruct (Hok 0%nat records eq_refl) as [Hok0 Hmetric0].
    rewrite Nat.add_0_r, Z.add_0_r in Hok0. rewrite Nat.add_0_r in Hmetric0.
    destruct (first_attempt_response endpoint params w wp p page records
                Hretries Hp Hok0 Hmetric0) as (w2 & Hget & Hcur & Hreqs & _).
    assert (Hd2 : caller_entries (Some p) w2
                  = page_query c page (caller_entries params w)).
    { unfold caller_entries at 1. unfold deref. now rewrite Hcur. }
    assert (Hnext : forall k, page_request c endpoint k (caller_entries (Some p) w2)
                              = page_request c endpoint k (caller_entries params w)).
    { intros k. rewrite Hd2. unfold page_request. now rewrite page_query_overwrites. }
    assert (Hlen : length (requests w2) = S (length (requests w)))
      by (rewrite Hreqs, length_app; cbn [length]; lia).
    destruct (IH (page + 1)%Z (Some p) w2 Hretries) as [w_end Hrest].
    + now inversion Hfull.
    + intros i records' Hi. rewrite Hnext, Hlen.
      destruct (Hok (S i) records' Hi) as [Hoki Hmetrici].
      replace (page + 1 + Z.of_nat i)%Z with (page + Z.of_nat (S i))%Z by lia.
      replace (S (length (requests w)) + i)%nat
        with (length (requests w) + S i)%nat by lia.
      now split.
    + intros j Hj. rewrite Hnext, Hlen.
      specialize (Hfail j Hj). cbn [length] in Hfail.
      replace (page + 1 + Z.of_nat (length pages))%Z
        with (page + Z.of_nat (S (length pages)))%Z by lia.
      replace (S (length (requests w)) + length pages + j)%nat
        with (length (requests w) + S (length pages) + j)%nat by lia.
      exact Hfail.
    + exists w_end, w2. inversion Hfull as [|? ? [Hne Hsize] _]. auto.
Qed.

(** C4.  [get_paginated] returns for every environment, and never with an
    [APIError].  When the [get]s of pages [1 .. m] return the pages
    [pages], however many attempts each one took, and the [get] of page
    [m + 1] raises [APIError] (its retries are exhausted), the loop ends
    there and [get_paginated] returns the records of [pages], in order,
    and nothing else; for [m = 0] this is the empty list.  In terms of the
    server (with [max_retries >= 1]): when pages [1 .. m] are each answered
    at once by a full page and every attempt on page [m + 1] fails, the
    result is exactly the records of these [m] pages.  In particular (with
    [max_pages >= 2]): when page 1 is answered by a full page and every
    attempt on page 2 fails, the result is exactly the records of page 1. *)
Theorem get_paginated_degrades endpoint params w :
  (exists r w',
     get_paginated env c endpoint params w = Some (r, w') /\ r <> Raise APIError)
  /\ (forall (pages : list (list Rec)) w_end,
        (Z.of_nat (length pages) < max_pages c)%Z ->
        fetched endpoint 1 params w pages w_end ->
        get_paginated env c endpoint params w = Some (Ret (concat pages), w_end))
  /\ (forall pages : list (list Rec),
        (1 <= max_retries c)%Z ->
        (Z.of_nat (length pages) < max_pages c)%Z ->
        Forall (fun records => records <> []
                               /\ (page_size c <= Z.of_nat (length records))%Z) pages ->
        (forall (i : nat) records, pages !! i = Some records ->
           transport env (length (requests w) + i)
             (page_request c endpoint (1 + Z.of_nat i) (caller_entries params w))
           = OK records
           /\ metrics_writable env (length (requests w) + i) = true) ->
        (forall j, (j < Z.to_nat (max_retries c))%nat ->
           is_failure (transport env (length (requests w) + length pages + j)
                         (page_request c endpoint (1 + Z.of_nat (length pages))
                            (caller_entries params w))) = true) ->
        exists w', get_paginated env c endpoint params w = Some (Ret (concat pages), w'))
  /\ (forall page1 : list Rec,
        (2 <= max_pages c)%Z ->
        (1 <= max_retries c)%Z ->
        page1 <> [] ->
        Z.of_nat (length page1) = page_size c ->
        transport env (length (requests w))
          (page_request c endpoint 1 (caller_entries params w)) = OK page1 ->
        metrics_writable env (length (requests w)) = true ->
        (forall n, is_failure (transport env n
                     (page_request c endpoint 2 (caller_entries params w))) = true) ->
        exists w', get_paginated env c endpoint params w = Some (Ret page1, w')).
Proof.
  split; [apply get_paginated_returns|].
  assert (Hgeneral : forall (pages : list (list Rec)) w_end,
            (Z.of_nat (length pages) < max_pages c)%Z ->
            fetched endpoint 1 params w pages w_end ->
            get_paginated env c endpoint params w = Some (Ret (concat pages), w_end)).
  { intros pages w_end Hlen H. unfold get_paginated.
    apply (paginate_fetched endpoint pages _ 1 params [] w w_end); [lia|lia|exact H]. }
  assert (Hserver : forall pages : list (list Rec),
            (1 <= max_retries c)%Z ->
            (Z.of_nat (length pages) < max_pages c)%Z ->
            Forall (fun records => records <> []
                                   /\ (page_size c <= Z.of_nat (length records))%Z) pages ->
            (forall (i : nat) records, pages !! i = Some records ->
               transport env (length (requests w) + i)
                 (page_request c endpoint (1 + Z.of_nat i) (caller_entries params w))
               = OK records
               /\ metrics_writable env (length (requests w) + i) = true) ->
            (forall j, (j < Z.to_nat (max_retries c))%nat ->
               is_failure (transport env (length (requests w) + length pages + j)
                             (page_request c endpoint (1 + Z.of_nat (length pages))
                                (caller_entries params w))) = true) ->
            exists w', get_paginated env c endpoint params w
                       = Some (Ret (concat pages), w')).
  { intros pages Hretries Hlen Hfull Hok Hfail.
    destruct (fetched_at_once endpoint pages 1 params w Hretries Hfull Hok Hfail)
      as [w_end H].
    exists w_end. now apply Hgeneral. }
  split; [exact Hgeneral|]. split; [exact Hserver|].
  intros page1 Hpages Hretries Hne Hfull Hok Hmetric Hfail.
  destruct (Hserver [page1] Hretries) as [w' H].
  - cbn [length]. lia.
  - constructor; [|constructor]. split; [exact Hne|lia].
  - intros [|i] records Hi; [|discriminate Hi].
    injection Hi as <-. rewrite Nat.add_0_r. now split.
  - intros j _. apply Hfail.
  - exists w'. cbn [concat] in H. now rewrite app_nil_r in H.
Qed.


End GetPaginatedFacts.

(** ** Concrete runs *)

(** The client [main.py] builds, with the default settings: pages of 100
    records, at most 10 pages, 3 attempts per request. *)
Definition client : APIClient :=
  init default_settings "https://jsonplaceholder.typicode.com".

Definition record (i : Z) : Json.RawRecord := {[ "id" := Json.JInt i ]}.

Definition empty_world : World := mkWorld ∅ [] [] [].

(** A world in which the caller holds the dict [{"q": "x"}] at location 1. *)
Definition caller_dict : Params := {[ "q" := VStr "x" ]}.
Definition caller_world : World := mkWorld {[ 1%positive := caller_dict ]} [] [] [].

(** The number under ["_page"] in the query of a request. *)
Definition page_of (request : Request) : option Z :=
  match query request with
  | Some q => match q !! "_page" with Some (VInt n) => Some n | _ => None end
  | None => None
  end.

(** A collection of three records: page 1 is short. *)
Definition three_records : list Json.RawRecord := [record 1; record 2; record 3].
Definition env_short : Env (list Json.RawRecord) :=
  mkEnv (fun _ request =>
           match page_of request with
           | Some 1%Z => OK three_records
           | _ => OK []
           end)
        (fun _ => true).

(** A server that is down. *)
Definition env_down : Env (list Json.RawRecord) :=
  mkEnv (fun _ _ => ConnectionError) (fun _ => true).

(** A server that answers 503 once and then serves the three records. *)
Definition env_flaky : Env (list Json.RawRecord) :=
  mkEnv (fun n _ => if (n =? 0)%nat then HTTPError 503 else OK three_records)
        (fun _ => true).

(** A server that serves one full page and fails on every request for
    page 2. *)
Definition full_page : list Json.RawRecord := map record (map Z.of_nat (seq 1 100)).
Definition env_page2_down : Env (list Json.RawRecord) :=
  mkEnv (fun _ request =>
           match page_of request with
           | Some 1%Z => OK full_page
           | _ => ConnectionError
           end)
        (fun _ => true).

(** A server that serves two full pages, with different records, and fails
    on every request for page 3. *)
Definition second_page : list Json.RawRecord := map record (map Z.of_nat (seq 101 100)).
Definition env_page3_down : Env (list Json.RawRecord) :=
  mkEnv (fun _ request =>
           match page_of request with
           | Some 1%Z => OK full_page
           | Some 2%Z => OK second_page
           | _ => ConnectionError
           end)
        (fun _ => true).

(** A healthy server, and a performance log that cannot be written. *)
Definition env_log_unwritable : Env (list Json.RawRecord) :=
  mkEnv (fun _ _ => OK three_records) (fun _ => false).

Lemma page_of_page_request (c : APIClient) (endpoint : string) (k : Z) (d : Params) :
  page_of (page_request c endpoint k d) = Some k.
Proof.
  unfold page_of, page_request, page_query. cbn [query].
  rewrite lookup_insert_ne by discriminate.
  now rewrite lookup_insert_eq.
Qed.

Lemma get_paginated_short_page_witness :
  exists w',
    get_paginated env_short client "users" None empty_world
    = Some (Ret three_records, w')
    /\ requests w' = requests empty_world ++ [page_request client "users" 1 ∅]
    /\ sleeps w' = sleeps empty_world.
Proof.
  apply (get_paginated_short_page env_short client "users" None empty_world three_records).
  - vm_compute. discriminate.
  - vm_compute. discriminate.
  - vm_compute. reflexivity.
  - vm_compute. reflexivity.
  - discriminate.
  - vm_compute. reflexivity.
Defined.

Lemma get_paginated_degrades_witness :
  (exists w',
     get_paginated env_page2_down client "users" None empty_world
     = Some (Ret full_page, w'))
  /\ (exists w',
        get_paginated env_page3_down client "users" None empty_world
        = Some (Ret (full_page ++ second_page), w')).
Proof.
  split.
  - apply (get_paginated_degrades env_page2_down client "users" None empty_world).
    + vm_compute. discriminate.
    + vm_compute. discriminate.
    + discriminate.
    + reflexivity.
    + cbn [transport env_page2_down]. now rewrite page_of_page_request.
    + reflexivity.
    + intros n. cbn [transport env_page2_down]. now rewrite page_of_page_request.
  - destruct (proj1 (proj2 (proj2
                (get_paginated_degrades env_page3_down client "users" None empty_world)))
                [full_page; second_page]) as [w' H].
    + vm_compute. discriminate.
    + vm_compute. reflexivity.
    + repeat constructor; discriminate.
    + intros [|[|i]] records Hi; [| |discriminate Hi]; injection Hi as <-;
        cbn [transport env_page3_down]; rewrite page_of_page_request; now split.
    + intros j _. cbn [transport env_page3_down]. now rewrite page_of_page_request.
    + exists w'. cbn [concat] in H. now rewrite app_nil_r in H.
Defined.

Lemma get_retry_spec_witness :
  let request := request_of client "users" None empty_world in
  get env_down client "users" None empty_world
  = (Raise APIError, mkWorld ∅ [request; request; request] [1%Z; 2%Z] [])
  /\ get env_flaky client "users" None empty_world
     = (Ret (Some three_records), mkWorld ∅ [request; request] [1%Z] ["users"]).
Proof.
  cbv zeta. split.
  - apply (get_retry_spec env_down client "users" None empty_world).
    + vm_compute. discriminate.
    + intros i _. vm_compute. reflexivity.
  - apply (proj2 (get_retry_spec env_flaky client "users" None empty_world
                    ltac:(vm_compute; discriminate)) 1%nat three_records).
    + vm_compute. lia.
    + intros i Hi. assert (i = 0%nat) as -> by lia. reflexivity.
    + vm_compute. reflexivity.
    + vm_compute. reflexivity.
Defined.

Lemma get_metrics_failure_propagates_witness :
  let request := request_of client "users" None empty_world in
  get env_log_unwritable client "users" None empty_world
  = (Raise OSError, mkWorld ∅ [request] [] []).
Proof.
  cbv zeta.
  apply (get_metrics_failure_propagates env_log_unwritable client "users" None
           empty_world 0 three_records).
  - vm_compute. lia.
  - intros i Hi. lia.
  - vm_compute. reflexivity.
  - vm_compute. reflexivity.
Defined.

(** A 2xx response whose metric line cannot be written: the request fails
    with [OSError] instead of returning the body. *)
Lemma get_fails_when_log_unwritable :
  transport env_log_unwritable 0
    (request_of client "users" None empty_world) = OK three_records
  /\ fst (get env_log_unwritable client "users" None empty_world) = Raise OSError
  /\ fst (get env_log_unwritable client "users" None empty_world)
     <> Ret (Some three_records).
Proof.
  split; [vm_compute; reflexivity|].
  split; [vm_compute; reflexivity|].
  vm_compute. discriminate.
Qed.


(** Such a run, evaluated, with bare ids for records: page 1 is requested
    once, page 2 three times, and the caller's dict is left at page 2. *)
Definition id_page : list Z := map Z.of_nat (seq 1 100).
Definition env_ids_page2_down : Env (list Z) :=
  mkEnv (fun _ request =>
           match page_of request with
           | Some 1%Z => OK id_page
           | _ => ConnectionError
           end)
        (fun _ => true).

Example get_paginated_pages_example :
  exists w',
    get_paginated env_ids_page2_down client "users" (Some 1%positive) caller_world
    = Some (Ret id_page, w')
    /\ requests w' = sent_by_pages client "users" caller_dict 1 [1; 3]%nat
    /\ heap w' !! 1%positive = Some (page_query client 2 caller_dict).
Proof.
  eexists. split; [vm_compute; reflexivity|].
  split; vm_compute; reflexivity.
Qed.


(** ** More on [get]: what holds whatever the server answers *)

(** [_make_request]: the [while retries < self.max_retries] loop.  A failed
    attempt only counts; nothing is slept and no metric is written.  The
    world's request log keeps url, query and timeout; the method, ["GET"] for
    both callers, is not part of it, and no query is passed.  [fuel] bounds
    the iterations; [None] means it ran out. *)
Fixpoint make_request_loop {Body : Type} (env : Env Body) (c : APIClient)
    (endpoint : string) (fuel : nat) (retries : Z) (w : World)
    : option (result Body * World) :=
  match fuel with
  | O => None
  | S fuel =>
      if (retries <? max_retries c)%Z then
        let n := length (requests w) in
        let request := request_of c endpoint None w in
        let w := sent request w in
        match transport env n request with
        | OK body => Some (Ret body, w)
        | ConnectionError | HTTPError _ | InvalidJSON =>
            make_request_loop env c endpoint fuel (retries + 1) w
        end
      else Some (Raise APIError, w)
  end.

Definition make_request {Body : Type} (env : Env Body) (c : APIClient)
    (method endpoint : string) (w : World) : option (result Body * World) :=
  make_request_loop env c endpoint (S (Z.to_nat (max_retries c))) 0 w.

(** [get_users]. *)
Definition get_users {Body : Type} (env : Env Body) (c : APIClient) (w : World)
    : option (result Body * World) :=
  make_request env c "GET" "users" w.

(** Lines that the attempts at indices [start, ..., start + k - 1] append to
    the performance log: one for every 2xx response that comes back at a
    moment when the log can be written. *)
Fixpoint lines_written {Body : Type} (env : Env Body) (request : Request)
    (start k : nat) : nat :=
  match k with
  | O => O
  | S k =>
      ((if answered (transport env start request) && metrics_writable env start
        then 1 else 0)
       + lines_written env request (S start) k)%nat
  end.

(** The attempt reached the handler of [RequestException]: it failed, or its
    2xx response was logged and then found not to be JSON. *)
Definition retried {Body : Type} (o : Outcome Body) (written : bool) : bool :=
  match o with
  | ConnectionError | HTTPError _ => true
  | InvalidJSON => written
  | OK _ => false
  end.

(** How a call of [get] ends, from the outcome [last] of its last attempt,
    whether the log could be [written] then, and whether that attempt was
    the one numbered [max_retries - 1] ([exhausted]). *)
Definition ending {Body : Type} (r : result (option Body)) (last : Outcome Body)
    (written : bool) (exhausted : Prop) : Prop :=
  (exists body, r = Ret (Some body) /\ last = OK body /\ written = true)
  \/ (r = Raise OSError /\ answered last = true /\ written = false)
  \/ (r = Raise APIError /\ exhausted /\ retried last written = true).

Section GetShape.
Context {Body : Type} (env : Env Body) (c : APIClient).
Implicit Types (w : World) (endpoint : string) (params : option loc).

Lemma ending_impl (r : result (option Body)) (last : Outcome Body) (written : bool)
    (P Q : Prop) :
  (P -> Q) -> ending r last written P -> ending r last written Q.
Proof.
  intros HPQ [H|[H|(Hr & HP & H)]]; [left; exact H|right; left; exact H|].
  right. right. auto.
Qed.

(** How a run of attempts up to the last one can end. *)
Lemma get_attempts_shape endpoint params (len : nat) :
  forall (first : nat) w r w',
    Z.of_nat (first + S len) = max_retries c ->
    get_attempts env c endpoint params (map Z.of_nat (seq first (S len))) w = (r, w') ->
    let request := request_of c endpoint params w in
    let n := length (requests w) in
    exists k,
      (1 <= k <= S len)%nat
      /\ heap w' = heap w
      /\ requests w' = requests w ++ replicate k request
      /\ sleeps w' = sleeps w ++ backoffs first (k - 1)
      /\ perf_log w' = perf_log w ++ replicate (lines_written env request n k) endpoint
      /\ (forall i, (S i < k)%nat ->
            retried (transport env (n + i) request) (metrics_writable env (n + i)) = true)
      /\ ending r (transport env (n + (k - 1)) request)
           (metrics_writable env (n + (k - 1))) (k = S len).
Proof.
  induction len as [|len IH]; intros first w r w' Hlast H; cbv zeta.
  - cbn [seq map get_attempts] in H.
    assert (Hend : (Z.of_nat first =? max_retries c - 1)%Z = true)
      by (apply Z.eqb_eq; lia).
    rewrite Hend in H. exists 1%nat.
    cbn [Nat.sub backoffs seq map lines_written replicate]. rewrite !Nat.add_0_r.
    destruct (transport env (length (requests w)) (request_of c endpoint params w))
      as [|status|body|] eqn:Et;
      destruct (metrics_writable env (length (requests w))) eqn:Ew;
      injection H as <- <-;
      cbn [heap requests sleeps perf_log sent logged answered andb Nat.add replicate];
      rewrite ?app_nil_r;
      (split; [lia|]); do 4 (split; [reflexivity|]);
      (split; [intros i Hi; lia|]); unfold ending; cbn [retried answered]; eauto 8.
  - cbn [seq map get_attempts] in H.
    assert (Hnot : (Z.of_nat first =? max_retries c - 1)%Z = false)
      by (apply Z.eqb_neq; lia).
    rewrite Hnot in H.
    set (request := request_of c endpoint params w) in *.
    set (n := length (requests w)) in *.
    assert (Hmore : forall wx,
      heap wx = heap w -> requests wx = requests w ++ [request] ->
      sleeps wx = sleeps w ->
      perf_log wx
      = perf_log w
        ++ replicate (if answered (transport env n request) && metrics_writable env n
                      then 1 else 0)%nat endpoint ->
      retried (transport env n request) (metrics_writable env n) = true ->
      get_attempts env c endpoint params (map Z.of_nat (seq (S first) (S len)))
        (slept (2 ^ Z.of_nat first) wx) = (r, w') ->
      exists k,
        (1 <= k <= S (S len))%nat
        /\ heap w' = heap w
        /\ requests w' = requests w ++ replicate k request
        /\ sleeps w' = sleeps w ++ backoffs first (k - 1)
        /\ perf_log w' = perf_log w ++ replicate (lines_written env request n k) endpoint
        /\ (forall i, (S i < k)%nat ->
              retried (transport env (n + i) request) (metrics_writable env (n + i)) = true)
        /\ ending r (transport env (n + (k - 1)) request)
             (metrics_writable env (n + (k - 1))) (k = S (S len))).
    { intros wx Hh Hr Hs Hp Hretried E.
      apply (IH (S first)) in E; [|lia]. cbv zeta in E.
      rewrite (request_of_heap c endpoint params (slept (2 ^ Z.of_nat first) wx) w Hh)
        in E.
      fold request in E. cbn [heap requests sleeps perf_log slept] in E.
      rewrite Hh, Hr, Hs, Hp, length_app in E. cbn [length] in E. fold n in E.
      destruct E as (k & Hk & Eh & Er & Es & Ep & Ebefore & Eend).
      assert (Hshift : forall i, (n + 1 + i = n + S i)%nat) by (intros; lia).
      exists (S k). split; [lia|]. split; [exact Eh|].
      split; [rewrite Er, <- app_assoc; reflexivity|].
      split.
      { rewrite Es, <- app_assoc. replace (S k - 1)%nat with (S (k - 1)) by lia.
        reflexivity. }
      split.
      { rewrite Ep, <- app_assoc, <- replicate_add. cbn [lines_written].
        now rewrite Nat.add_1_r. }
      split.
      { intros [|i] Hi; [now rewrite Nat.add_0_r|].
        rewrite <- Hshift. apply Ebefore. lia. }
      replace (n + (S k - 1))%nat with (n + 1 + (k - 1))%nat by lia.
      revert Eend. apply ending_impl. lia. }
    destruct (transport env n request) as [|status|body|] eqn:Et.
    + apply (Hmore (sent request w) eq_refl eq_refl eq_refl); [|reflexivity|exact H].
      cbn [perf_log sent answered andb replicate]. now rewrite app_nil_r.
    + apply (Hmore (sent request w) eq_refl eq_refl eq_refl); [|reflexivity|exact H].
      cbn [perf_log sent answered andb replicate]. now rewrite app_nil_r.
    + exists 1%nat.
      cbn [Nat.sub backoffs seq map lines_written replicate]. rewrite !Nat.add_0_r.
      rewrite Et.
      destruct (metrics_writable env n) eqn:Ew; injection H as <- <-;
        cbn [heap requests sleeps perf_log sent logged answered andb Nat.add replicate];
        rewrite ?app_nil_r;
        (split; [lia|]); do 4 (split; [reflexivity|]);
        (split; [intros i Hi; lia|]); unfold ending; cbn [retried answered]; eauto 8.
    + destruct (metrics_writable env n) eqn:Ew.
      * apply (Hmore (logged endpoint (sent request w)) eq_refl eq_refl eq_refl);
          [reflexivity|reflexivity|exact H].
      * exists 1%nat.
        cbn [Nat.sub backoffs seq map lines_written replicate]. rewrite !Nat.add_0_r.
        rewrite Et, Ew. injection H as <- <-.
        cbn [heap requests sleeps perf_log sent logged answered andb Nat.add replicate].
        rewrite ?app_nil_r.
        split; [lia|]. do 4 (split; [reflexivity|]).
        split; [intros i Hi; lia|]. unfold ending. cbn [retried answered]. eauto 8.
Qed.

(** X9.  With [max_retries >= 1], whatever the server answers, a call of
    [get] sends the same request [k] times, with [1 <= k <= max_retries],
    sleeps [1, 2, 4, ...] with one sleep fewer than sendings, and changes no
    dict.  It appends one line to the performance log for every 2xx
    response that came back while the log could be written, whether or not
    the body of that response was JSON.  Every attempt before the last one
    failed, or had a 2xx response that was logged and was not JSON.  The
    call ends in one of three ways: it returns the body of the last
    response, which was logged; or it raises [OSError], the last response
    being a 2xx one that could not be logged; or it raises [APIError], after
    all [max_retries] sendings, the last attempt having failed or having
    had a logged response that was not JSON. *)
Theorem get_shape endpoint params w :
  (1 <= max_retries c)%Z ->
  let r := fst (get env c endpoint params w) in
  let w' := snd (get env c endpoint params w) in
  let request := request_of c endpoint params w in
  let n := length (requests w) in
  exists k,
    (1 <= k <= Z.to_nat (max_retries c))%nat
    /\ heap w' = heap w
    /\ requests w' = requests w ++ replicate k request
    /\ sleeps w' = sleeps w ++ backoffs 0 (k - 1)
    /\ perf_log w' = perf_log w ++ replicate (lines_written env request n k) endpoint
    /\ (forall i, (S i < k)%nat ->
          retried (transport env (n + i) request) (metrics_writable env (n + i)) = true)
    /\ ending r (transport env (n + (k - 1)) request)
         (metrics_writable env (n + (k - 1))) (k = Z.to_nat (max_retries c)).
Proof.
  intros Hpos. cbv zeta.
  destruct (get env c endpoint params w) as [r w'] eqn:H. cbn [fst snd].
  unfold get, range in H.
  destruct (Z.to_nat (max_retries c)) as [|len] eqn:En; [lia|].
  apply get_attempts_shape in H; [|lia]. exact H.
Qed.

End GetShape.

(** A server whose 2xx responses carry a body that is not JSON. *)
Definition env_not_json : Env (list Json.RawRecord) :=
  mkEnv (fun _ _ => InvalidJSON) (fun _ => true).

(** [get] logs each of these responses before it decodes it, retries, and
    raises [APIError] with three lines appended. *)
Example get_logs_before_decoding :
  get env_not_json client "users" None empty_world
  = (Raise APIError,
     mkWorld ∅ (replicate 3 (request_of client "users" None empty_world)) [1; 2]%Z
       ["users"; "users"; "users"]).
Proof. vm_compute. reflexivity. Qed.

Lemma get_shape_witness :
  let request := request_of client "users" None empty_world in
  let run := get env_not_json client "users" None empty_world in
  exists k,
    (1 <= k <= 3)%nat
    /\ requests (snd run) = replicate k request
    /\ sleeps (snd run) = backoffs 0 (k - 1)
    /\ perf_log (snd run) = replicate (lines_written env_not_json request 0 k) "users"
    /\ ending (fst run) (transport env_not_json (k - 1) request)
         (metrics_writable env_not_json (k - 1)) (k = 3%nat).
Proof.
  cbv zeta.
  destruct (get_shape env_not_json client "users" None empty_world)
    as (k & Hk & _ & Hreq & Hsleep & Hlog & _ & Hend).
  - vm_compute. discriminate.
  - exists k. split; [exact Hk|]. split; [exact Hreq|]. split; [exact Hsleep|].
    split; [exact Hlog|exact Hend].
Defined.

(** ** Backoff time, [_make_request], and a client without attempts *)

Lemma sum_backoffs (n : nat) :
  forall first, Py.sum (backoffs first n)
                = (2 ^ Z.of_nat (first + n) - 2 ^ Z.of_nat first)%Z.
Proof.
  induction n as [|n IH]; intros first.
  - rewrite Nat.add_0_r. unfold backoffs, Py.sum. simpl. lia.
  - change (backoffs first (S n))
      with ((2 ^ Z.of_nat first)%Z :: backoffs (S first) n).
    unfold Py.sum. cbn [foldl]. rewrite DataProcessor.foldl_add_shift.
    fold (Py.sum (backoffs (S first) n)). rewrite IH.
    replace (S first + n)%nat with (first + S n)%nat by lia.
    rewrite (Nat2Z.inj_succ first), Z.pow_succ_r by lia. lia.
Qed.

Section Exhaustion.
Context {Body : Type} (env : Env Body) (c : APIClient).
Implicit Types (w : World) (endpoint : string) (params : option loc).

(** X10.  With [max_retries >= 1], a [get] all of whose attempts fail has
    slept [2 ^ (max_retries - 1) - 1] seconds in total when it raises. *)
Theorem get_total_backoff endpoint params w :
  (1 <= max_retries c)%Z ->
  (forall i, (i < Z.to_nat (max_retries c))%nat ->
     is_failure (transport env (length (requests w) + i)
                   (request_of c endpoint params w)) = true) ->
  exists zs,
    sleeps (snd (get env c endpoint params w)) = sleeps w ++ zs
    /\ Py.sum zs = (2 ^ (max_retries c - 1) - 1)%Z.
Proof.
  intros Hpos Hfail.
  rewrite (get_exhausted env c endpoint params w Hpos Hfail).
  eexists. split; [reflexivity|].
  rewrite sum_backoffs. cbn [Nat.add].
  replace (Z.of_nat (Z.to_nat (max_retries c) - 1)) with (max_retries c - 1)%Z by lia.
  reflexivity.
Qed.

Lemma make_request_loop_shape endpoint (fuel : nat) :
  forall (retries : Z) w,
    (Z.to_nat (max_retries c - retries) < fuel)%nat ->
    exists r w' (k : nat),
      make_request_loop env c endpoint fuel retries w = Some (r, w')
      /\ heap w' = heap w /\ sleeps w' = sleeps w /\ perf_log w' = perf_log w
      /\ requests w' = requests w ++ replicate k (request_of c endpoint None w)
      /\ (k <= Z.to_nat (max_retries c - retries))%nat
      /\ (forall i, (S i < k)%nat ->
            gives_body (transport env (length (requests w) + i)
                          (request_of c endpoint None w)) = false)
      /\ ((exists body j, r = Ret body /\ k = S j
             /\ transport env (length (requests w) + j)
                  (request_of c endpoint None w) = OK body)
          \/ (r = Raise APIError /\ k = Z.to_nat (max_retries c - retries)
              /\ forall i, (i < k)%nat ->
                   gives_body (transport env (length (requests w) + i)
                                 (request_of c endpoint None w)) = false)).
Proof.
  induction fuel as [|fuel IH]; intros retries w Hfuel; [lia|].
  cbn [make_request_loop].
  destruct (Z.ltb_spec retries (max_retries c)) as [Hlt|Hge].
  - assert (Hmore : gives_body (transport env (length (requests w))
                                  (request_of c endpoint None w)) = false ->
      exists r w' (k : nat),
        make_request_loop env c endpoint fuel (retries + 1)
          (sent (request_of c endpoint None w) w) = Some (r, w')
        /\ heap w' = heap w /\ sleeps w' = sleeps w /\ perf_log w' = perf_log w
        /\ requests w' = requests w ++ replicate k (request_of c endpoint None w)
        /\ (k <= Z.to_nat (max_retries c - retries))%nat
        /\ (forall i, (S i < k)%nat ->
              gives_body (transport env (length (requests w) + i)
                            (request_of c endpoint None w)) = false)
        /\ ((exists body j, r = Ret body /\ k = S j
               /\ transport env (length (requests w) + j)
                    (request_of c endpoint None w) = OK body)
            \/ (r = Raise APIError /\ k = Z.to_nat (max_retries c - retries)
                /\ forall i, (i < k)%nat ->
                     gives_body (transport env (length (requests w) + i)
                                   (request_of c endpoint None w)) = false))).
    { intros Hfail0.
      destruct (IH (retries + 1)%Z (sent (request_of c endpoint None w) w))
        as (r & w' & k & E & Hh & Hs & Hp & Hr & Hk & Hbefore & Hend); [lia|].
      change (request_of c endpoint None (sent (request_of c endpoint None w) w))
        with (request_of c endpoint None w) in *.
      cbn [heap sleeps perf_log requests sent] in *.
      rewrite length_app in Hbefore, Hend. cbn [length] in Hbefore, Hend.
      assert (Hshift : forall i, (length (requests w) + 1 + i
                                  = length (requests w) + S i)%nat) by (intros; lia).
      exists r, w', (S k).
      split; [exact E|]. split; [exact Hh|]. split; [exact Hs|]. split; [exact Hp|].
      split; [rewrite Hr, <- app_assoc; reflexivity|].
      split; [lia|].
      split.
      { intros [|i] Hi; [now rewrite Nat.add_0_r|].
        rewrite <- Hshift. apply Hbefore. lia. }
      destruct Hend as [(body & j & -> & -> & Hok)|(-> & Hk' & Hall)].
      - left. exists body, (S j). rewrite <- Hshift. auto.
      - right. split; [reflexivity|]. split; [lia|].
        intros [|i] Hi; [now rewrite Nat.add_0_r|].
        rewrite <- Hshift. apply Hall. lia. }
    destruct (transport env (length (requests w)) (request_of c endpoint None w))
      as [|status|body|] eqn:Et;
      [apply Hmore; reflexivity|apply Hmore; reflexivity| |apply Hmore; reflexivity].
    exists (Ret body), (sent (request_of c endpoint None w) w), 1%nat.
    split; [reflexivity|]. repeat (split; [reflexivity|]).
    split; [lia|]. split; [intros i Hi; lia|].
    left. exists body, 0%nat. rewrite Nat.add_0_r. auto.
  - exists (Raise APIError), w, 0%nat.
    split; [reflexivity|]. repeat (split; [reflexivity|]).
    split; [cbn [replicate]; now rewrite app_nil_r|].
    split; [lia|]. split; [intros i Hi; lia|].
    right. split; [reflexivity|]. split; [lia|]. intros i Hi. lia.
Qed.

(** X11.  [_make_request] always ends.  It never sleeps, never writes a
    metric line and changes no dict.  It sends the same request until the
    first 2xx response with a JSON body, which it returns, and at most
    [max_retries] times; every attempt before the last one sent gave no
    body (it failed, or its body was not JSON).  It raises [APIError]
    exactly when it has sent the request [max_retries] times (no time at
    all for [max_retries <= 0]) and none of them gave a body. *)
Theorem make_request_spec (method endpoint : string) w :
  let request := request_of c endpoint None w in
  exists r w' (k : nat),
    make_request env c method endpoint w = Some (r, w')
    /\ heap w' = heap w /\ sleeps w' = sleeps w /\ perf_log w' = perf_log w
    /\ requests w' = requests w ++ replicate k request
    /\ (k <= Z.to_nat (max_retries c))%nat
    /\ (forall i, (S i < k)%nat ->
          gives_body (transport env (length (requests w) + i) request) = false)
    /\ ((exists body j, r = Ret body /\ k = S j
           /\ transport env (length (requests w) + j) request = OK body)
        \/ (r = Raise APIError /\ k = Z.to_nat (max_retries c)
            /\ forall i, (i < k)%nat ->
                 gives_body (transport env (length (requests w) + i) request) = false)).
Proof.
  cbv zeta. unfold make_request.
  destruct (make_request_loop_shape endpoint (S (Z.to_nat (max_retries c))) 0 w)
    as (r & w' & k & H); [rewrite Z.sub_0_r; lia|].
  rewrite Z.sub_0_r in H. exists r, w', k. exact H.
Qed.

End Exhaustion.

Lemma get_total_backoff_witness :
  exists zs,
    sleeps (snd (get env_down client "users" None empty_world)) = sleeps empty_world ++ zs
    /\ Py.sum zs = 3%Z.
Proof.
  apply (get_total_backoff env_down client "users" None empty_world).
  - vm_compute. discriminate.
  - intros i _. reflexivity.
Defined.

(** ** More on the page loop *)

(** The page numbers [page, page + 1, ...], [n] of them. *)
Definition pages_from (page : Z) (n : nat) : list Z :=
  map (fun i => (page + Z.of_nat i)%Z) (seq 0 n).

Lemma pages_from_S (page : Z) (n : nat) :
  pages_from page (S n) = page :: pages_from (page + 1) n.
Proof.
  unfold pages_from. cbn [seq map]. f_equal; [lia|].
  rewrite <- seq_shift, map_map. apply map_ext. intros i. lia.
Qed.


Section PaginationFacts.
Context {Rec : Type} (env : Env (list Rec)) (c : APIClient).
Implicit Types (w : World) (endpoint : string) (params : option loc).




(** A resource that answers every request with a full page, and a log
    that can always be written. *)
Definition always_full : Prop :=
  (forall n request, exists body,
      transport env n request = OK body
      /\ Z.of_nat (length body) = page_size c)
  /\ (forall n, metrics_writable env n = true).

Lemma paginate_full_pages endpoint (fuel : nat) :
  (1 <= max_retries c)%Z ->
  (1 <= page_size c)%Z ->
  always_full ->
  forall page params (results : list Rec) w,
    (Z.to_nat (max_pages c + 1 - page) < fuel)%nat ->
    exists results' w',
      paginate env c endpoint fuel page params results w = Some (Ret results', w')
      /\ Z.of_nat (length results')
         = (Z.of_nat (length results)
            + Z.of_nat (Z.to_nat (max_pages c + 1 - page)) * page_size c)%Z
      /\ requests w'
         = requests w
           ++ map (fun k => page_request c endpoint k (caller_entries params w))
                (pages_from page (Z.to_nat (max_pages c + 1 - page)))
      /\ sleeps w' = sleeps w.
Proof.
  intros Hretries Hsize [Hfull Hlog].
  induction fuel as [|fuel IH]; intros page params results w Hfuel; [lia|].
  cbn [paginate]. case_bool_decide as Hpage.
  2: { exists results, w. split; [reflexivity|].
       replace (Z.to_nat (max_pages c + 1 - page)) with 0%nat by lia.
       cbn. rewrite app_nil_r. repeat split. lia. }
  destruct (or_empty_dict params w) as [p w0] eqn:Hp.
  destruct (Hfull (length (requests w))
              (page_request c endpoint page (caller_entries params w)))
    as (body & Hok & Hlen).
  destruct (first_attempt_response env c endpoint params w w0 p page body
              Hretries Hp Hok (Hlog _)) as (w2 & -> & Hcur & Hreqs & Hsl).
  destruct body as [|x l]; [cbn in Hlen; lia|].
  rewrite (proj2 (Z.ltb_ge _ _)) by lia.
  destruct (IH (page + 1)%Z (Some p) (results ++ x :: l) w2)
    as (results' & w' & E & Hres & Hsent & Hsl'); [lia|].
  assert (Hd2 : caller_entries (Some p) w2 = page_query c page (caller_entries params w)).
  { unfold caller_entries, deref. now rewrite Hcur. }
  exists results', w'. split; [exact E|].
  assert (Hpages : Z.to_nat (max_pages c + 1 - page)
                   = S (Z.to_nat (max_pages c + 1 - (page + 1)))) by lia.
  split.
  { rewrite Hres, length_app, Hpages. lia. }
  split; [|congruence].
  rewrite Hsent, Hreqs, Hpages, pages_from_S, Hd2. cbn [map].
  rewrite <- app_assoc. cbn [app]. do 2 f_equal.
  apply map_ext. intros k. unfold page_request. now rewrite page_query_overwrites.
Qed.

(** X13.  With [max_retries >= 1] and [page_size >= 1]: against a resource
    that answers every request with a full page, [get_paginated] requests
    the pages [1 .. max_pages] in this order, one request each and no sleep,
    and returns [max_pages * page_size] records. *)
Theorem get_paginated_full_pages endpoint params w :
  (1 <= max_retries c)%Z ->
  (1 <= page_size c)%Z ->
  always_full ->
  exists results w',
    get_paginated env c endpoint params w = Some (Ret results, w')
    /\ Z.of_nat (length results) = (Z.max 0 (max_pages c) * page_size c)%Z
    /\ requests w'
       = requests w
         ++ map (fun k => page_request c endpoint k (caller_entries params w))
              (pages_from 1 (Z.to_nat (max_pages c)))
    /\ sleeps w' = sleeps w.
Proof.
  intros Hretries Hsize Hfull. unfold get_paginated.
  destruct (paginate_full_pages endpoint (S (Z.to_nat (max_pages c)))
              Hretries Hsize Hfull 1 params [] w)
    as (results & w' & E & Hres & Hsent & Hsl); [lia|].
  replace (max_pages c + 1 - 1)%Z with (max_pages c) in * by lia.
  exists results, w'. split; [exact E|].
  split; [rewrite Hres; cbn [length]; lia|]. split; [exact Hsent|exact Hsl].
Qed.

(** X14.  An [OSError] from the performance log goes through
    [get_paginated] as well, in whatever iteration it happens, and the
    records collected so far are not returned.  In particular (with
    [max_pages >= 2] and [max_retries >= 1]): after a full page 1, a page 2
    that the server delivers but whose metric line cannot be written makes
    the whole call raise. *)
Theorem get_paginated_loses_pages endpoint params w :
  (forall (fuel : nat) page prm (results : list Rec) w0 p wp w1,
     (page <= max_pages c)%Z ->
     or_empty_dict prm w0 = (p, wp) ->
     get env c endpoint (Some p) (update_page c p page wp) = (Raise OSError, w1) ->
     paginate env c endpoint (S fuel) page prm results w0 = Some (Raise OSError, w1))
  /\ (forall page1 page2 : list Rec,
        (2 <= max_pages c)%Z ->
        (1 <= max_retries c)%Z ->
        page1 <> [] ->
        Z.of_nat (length page1) = page_size c ->
        transport env (length (requests w))
          (page_request c endpoint 1 (caller_entries params w)) = OK page1 ->
        metrics_writable env (length (requests w)) = true ->
        transport env (length (requests w) + 1)
          (page_request c endpoint 2 (caller_entries params w)) = OK page2 ->
        metrics_writable env (length (requests w) + 1) = false ->
        exists w', get_paginated env c endpoint params w = Some (Raise OSError, w')).
Proof.
  split.
  { intros fuel page prm results w0 p wp w1 Hpage Hp Hget.
    cbn [paginate]. rewrite bool_decide_eq_true_2 by exact Hpage.
    now rewrite Hp, Hget. }
  intros page1 page2 Hpages Hretries Hne Hfull Hok Hmetric Hok2 Hmetric2.
  unfold get_paginated.
  destruct (Z.to_nat (max_pages c)) as [|[|fuel]] eqn:Efuel; [lia|lia|].
  cbn [paginate]. rewrite bool_decide_eq_true_2 by lia.
  destruct (or_empty_dict params w) as [p w0] eqn:Hp.
  destruct (first_attempt_response env c endpoint params w w0 p 1 page1
              Hretries Hp Hok Hmetric) as (w2 & -> & Hcur & Hreqs & Hsl).
  destruct page1 as [|x l]; [congruence|].
  rewrite (proj2 (Z.ltb_ge _ _)) by lia.
  rewrite bool_decide_eq_true_2 by lia.
  assert (Hsame : or_empty_dict (Some p) w2 = (p, w2)).
  { assert (Hderef : deref w2 p = page_query c 1 (caller_entries params w))
      by (unfold deref; now rewrite Hcur).
    unfold or_empty_dict. rewrite Hderef.
    destruct (Nat.eqb_spec (size (page_query c 1 (caller_entries params w))) 0) as [E|E];
      [|reflexivity].
    apply map_size_empty_iff in E. now apply page_query_non_empty in E. }
  rewrite Hsame.
  pose proof (prepare_spec c (Some p) w2 w2 (1 + 1) p Hsame) as (Hcur2 & _ & Hreqs2 & _).
  assert (Hd2 : caller_entries (Some p) w2 = page_query c 1 (caller_entries params w)).
  { unfold caller_entries, deref. now rewrite Hcur. }
  rewrite Hd2, page_query_overwrites in Hcur2.
  set (w3 := update_page c p (1 + 1) w2) in *.
  pose proof (request_of_page c endpoint p w3 (1 + 1) _ Hcur2) as Hreq.
  assert (Hlen3 : length (requests w3) = (length (requests w) + 1)%nat).
  { rewrite Hreqs2, Hreqs, length_app. reflexivity. }
  rewrite (get_response_after env c endpoint (Some p) w3 0 page2);
    [|lia|intros i Hi; lia|now rewrite Nat.add_0_r, Hreq, Hlen3].
  cbv zeta. rewrite Nat.add_0_r, Hlen3, Hmetric2.
  eexists. reflexivity.
Qed.

(** X15.  With [max_pages >= 1] and [max_retries >= 1], an empty collection
    and a server that cannot be reached give the caller the same result, the
    empty list: the first after one request, the second after [max_retries]
    requests. *)
Theorem get_paginated_empty_or_unreachable endpoint params w :
  (1 <= max_pages c)%Z ->
  (1 <= max_retries c)%Z ->
  let request := page_request c endpoint 1 (caller_entries params w) in
  (transport env (length (requests w)) request = OK [] ->
   metrics_writable env (length (requests w)) = true ->
   exists w', get_paginated env c endpoint params w = Some (Ret [], w')
              /\ requests w' = requests w ++ [request])
  /\ ((forall n, is_failure (transport env n request) = true) ->
      exists w', get_paginated env c endpoint params w = Some (Ret [], w')
                 /\ requests w'
                    = requests w ++ replicate (Z.to_nat (max_retries c)) request).
Proof.
  intros Hpages Hretries request. split.
  - intros Hok Hmetric. unfold get_paginated. cbn [paginate].
    rewrite bool_decide_eq_true_2 by lia.
    destruct (or_empty_dict params w) as [p w0] eqn:Hp.
    destruct (first_attempt_response env c endpoint params w w0 p 1 []
                Hretries Hp Hok Hmetric) as (w2 & -> & _ & Hreqs & _).
    exists w2. split; [reflexivity|exact Hreqs].
  - intros Hfail. unfold get_paginated. cbn [paginate].
    rewrite bool_decide_eq_true_2 by lia.
    destruct (or_empty_dict params w) as [p w0] eqn:Hp.
    pose proof (prepare_spec c params w w0 1 p Hp) as (Hcur & _ & Hreqs & _).
    set (w1 := update_page c p 1 w0) in *.
    pose proof (request_of_page c endpoint p w1 1 _ Hcur) as Hreq.
    fold request in Hreq.
    rewrite (get_exhausted env c endpoint (Some p) w1 Hretries);
      [|intros i _; rewrite Hreq; apply Hfail].
    eexists. split; [reflexivity|].
    cbn [requests advance]. now rewrite Hreq, Hreqs.
Qed.

(** X16.  A client with [max_retries <= 0] makes no attempt at all, and the
    three entry points differ in what they do then: [get] returns [None]
    without raising, [_make_request] raises [APIError], and [get_paginated]
    returns the empty list; none of them sends a request. *)
Theorem no_attempts (method endpoint : string) params w :
  (max_retries c <= 0)%Z ->
  get env c endpoint params w = (Ret None, w)
  /\ make_request env c method endpoint w = Some (Raise APIError, w)
  /\ exists w', get_paginated env c endpoint params w = Some (Ret [], w')
                /\ requests w' = requests w /\ sleeps w' = sleeps w.
Proof.
  intros Hnone.
  assert (Hget : forall prm w0, get env c endpoint prm w0 = (Ret None, w0)).
  { intros prm w0. unfold get, range.
    now replace (Z.to_nat (max_retries c)) with 0%nat by lia. }
  split; [apply Hget|].
  split.
  { unfold make_request. cbn [make_request_loop].
    now rewrite (proj2 (Z.ltb_ge _ _)) by lia. }
  unfold get_paginated. cbn [paginate]. case_bool_decide.
  - destruct (or_empty_dict params w) as [p w0] eqn:Hp.
    pose proof (prepare_spec c params w w0 1 p Hp) as (_ & _ & Hreqs & Hsl & _).
    rewrite Hget. eexists. split; [reflexivity|]. split; assumption.
  - eexists. repeat split; reflexivity.
Qed.

End PaginationFacts.

Lemma get_paginated_full_pages_witness :
  exists results w',
    get_paginated (mkEnv (fun _ _ => OK full_page) (fun _ => true))
      client "users" None empty_world = Some (Ret results, w')
    /\ Z.of_nat (length results) = 1000%Z.
Proof.
  destruct (get_paginated_full_pages (mkEnv (fun _ _ => OK full_page) (fun _ => true))
              client "users" None empty_world)
    as (results & w' & E & Hlen & _).
  - vm_compute. discriminate.
  - vm_compute. discriminate.
  - split; [intros n request; exists full_page; split; reflexivity|reflexivity].
  - exists results, w'. split; [exact E|exact Hlen].
Defined.

Lemma get_paginated_empty_or_unreachable_witness :
  exists w', get_paginated env_down client "users" None empty_world = Some (Ret [], w')
             /\ requests w'
                = requests empty_world
                  ++ replicate 3 (page_request client "users" 1 ∅).
Proof.
  apply (get_paginated_empty_or_unreachable env_down client "users" None empty_world).
  - vm_compute. discriminate.
  - vm_compute. discriminate.
  - intros n. reflexivity.
Defined.

Lemma no_attempts_witness :
  get env_down (init (mkSettings 30 0) "h") "users" None empty_world
  = (Ret None, empty_world)
  /\ make_request env_down (init (mkSettings 30 0) "h") "GET" "users" empty_world
     = Some (Raise APIError, empty_world).
Proof.
  destruct (no_attempts env_down (init (mkSettings 30 0) "h") "GET" "users" None
              empty_world) as (Hget & Hmake & _).
  - vm_compute. discriminate.
  - split; [exact Hget|exact Hmake].
Defined.

Lemma get_paginated_loses_pages_witness :
  exists w',
    get_paginated
      (mkEnv (fun _ _ => OK full_page) (fun n => (n =? 0)%nat))
      client "users" None empty_world = Some (Raise OSError, w').
Proof.
  apply (proj2 (get_paginated_loses_pages
                  (mkEnv (fun _ _ => OK full_page) (fun n => (n =? 0)%nat))
                  client "users" None empty_world) full_page full_page).
  - vm_compute. discriminate.
  - vm_compute. discriminate.
  - discriminate.
  - reflexivity.
  - reflexivity.
  - reflexivity.
  - reflexivity.
  - reflexivity.
Defined.

End Client.

(* ===================================================================== *)
(** * [main.py]: from the normalised records to the ranked users *)
(* ===================================================================== *)

Module Main.
Import Json Models DataProcessor Helpers.

(** [process_posts] hands over post objects that hold whatever values the
    records held; [calculate_metrics] is modelled on posts whose values have
    the annotated types.  The typed view of a post object is defined exactly
    for those. *)
Definition typed_post (p : PostObject) : option Post :=
  match obj_id p, obj_user_id p, obj_title p, obj_body p with
  | JInt i, JInt u, JStr t, JStr b => Some (mkPost i u t b)
  | _, _, _, _ => None
  end.

(** [for user in self.users: self.data_processor.calculate_metrics(user, posts)]:
    every user of the list is updated in place. *)
Definition calculate_all (F : PyFloat.Arith) (users : list User) (posts : list Post)
    : list User :=
  map (fun user => calculate_metrics F user posts) users.

(** [sorted_users = sort_users_by_post_count(self.users)] after the loop. *)
Definition ranked (F : PyFloat.Arith) (users : list User) (posts : list Post)
    : list User :=
  sort_users_by_post_count (calculate_all F users posts).

(** The posts whose [user_id] is the [id] of one of the users. *)
Definition known_posts (users : list User) (posts : list Post) : list Post :=
  filter (fun post => user_id post ∈ map id users) posts.

Lemma sum_cons (x : Z) (xs : list Z) : Py.sum (x :: xs) = (x + Py.sum xs)%Z.
Proof. unfold Py.sum. cbn [foldl]. rewrite foldl_add_shift. lia. Qed.

Lemma sum_perm (xs ys : list Z) : xs ≡ₚ ys -> Py.sum xs = Py.sum ys.
Proof.
  induction 1 as [|x xs ys _ IH|x y xs|xs ys zs _ IH1 _ IH2].
  - reflexivity.
  - now rewrite !sum_cons, IH.
  - rewrite !sum_cons. lia.
  - congruence.
Qed.

Lemma lstrip_length (s : string) :
  (String.length (Py.lstrip s) <= String.length s)%nat.
Proof.
  induction s as [|ch s IH]; cbn [Py.lstrip String.length]; [lia|].
  destruct (Py.isspace ch); cbn [String.length]; lia.
Qed.

Lemma rstrip_length (s : string) :
  (String.length (Py.rstrip s) <= String.length s)%nat.
Proof.
  induction s as [|ch s IH]; cbn [Py.rstrip String.length]; [lia|].
  destruct (Py.rstrip s) as [|ch' r]; [destruct (Py.isspace ch)|];
    cbn [String.length] in *; lia.
Qed.

Lemma strip_len (s : string) : (0 <= Py.len (Py.strip s) <= Py.len s)%Z.
Proof.
  unfold Py.len, Py.strip.
  pose proof (rstrip_length (Py.lstrip s)). pose proof (lstrip_length s). lia.
Qed.

Lemma trimmed_total_bounds (ps : list Post) :
  (0 <= trimmed_total ps <= Py.sum (map (fun post => Py.len (body post)) ps))%Z.
Proof.
  induction ps as [|p ps IH]; cbn [trimmed_total map]; [now compute|].
  rewrite sum_cons. pose proof (strip_len (body p)). lia.
Qed.

Lemma exact_monotone : PyFloat.monotone PyFloat.exact.
Proof.
  intros a a' b Ha Hb. cbn [PyFloat.truediv PyFloat.exact].
  assert (Hinv : (0 <= / inject_Z b)%Q).
  { apply Qinv_le_0_compat. rewrite <- (Zle_Qle 0). lia. }
  split.
  - apply Qmult_le_0_compat; [|exact Hinv]. rewrite <- (Zle_Qle 0). lia.
  - apply Qmult_le_compat_r; [|exact Hinv]. rewrite <- Zle_Qle. lia.
Qed.

(** The bounds on the stored average, for one float division. *)
Definition avg_chars_bounded (F : PyFloat.Arith) (user : User) (all_posts : list Post)
    : Prop :=
  let user' := calculate_metrics F user all_posts in
  (0 <= avg_chars user')%Q
  /\ (avg_chars user' <= get_average_post_length F (posts user'))%Q.

Lemma monotone_avg_chars_bounded (F : PyFloat.Arith) (user : User)
    (all_posts : list Post) :
  PyFloat.monotone F -> avg_chars_bounded F user all_posts.
Proof.
  intros Hmono. unfold avg_chars_bounded. cbv zeta.
  rewrite calculate_metrics_fields. cbn [avg_chars posts].
  destruct (filter (fun post => user_id post = id user) all_posts) as [|p owned].
  - split; apply Qle_refl.
  - cbn [get_average_post_length].
    pose proof (trimmed_total_bounds (p :: owned)) as Hbounds.
    apply Hmono; [exact Hbounds|]. cbn [length]. lia.
Qed.

(** X7.  The average [calculate_metrics] stores is never negative and never
    above the average untrimmed body length that [get_average_post_length]
    gives for the posts attached to the user: trimming only shortens a body.
    This holds with Python's division, with the exact quotient, and with
    every float division that is non-negative and monotone in the
    dividend. *)
Theorem avg_chars_bounds (user : User) (all_posts : list Post) :
  avg_chars_bounded PyFloat.binary64 user all_posts
  /\ avg_chars_bounded PyFloat.exact user all_posts
  /\ (forall F, PyFloat.monotone F -> avg_chars_bounded F user all_posts).
Proof.
  split; [apply monotone_avg_chars_bounded, PyFloat.binary64_monotone|].
  split; [apply monotone_avg_chars_bounded, exact_monotone|].
  intros F. apply monotone_avg_chars_bounded.
Qed.

Lemma avg_chars_bounds_witness :
  let user' := calculate_metrics PyFloat.binary64 (mkUser 1 "A" "a" "a@x" [] 0 0)
                 [mkPost 10 1 "t" " ab "; mkPost 11 1 "t" "abcd"] in
  (0 <= avg_chars user')%Q
  /\ (avg_chars user' <= get_average_post_length PyFloat.binary64 (posts user'))%Q.
Proof.
  apply (proj2 (proj2 (avg_chars_bounds (mkUser 1 "A" "a" "a@x" [] 0 0)
                         [mkPost 10 1 "t" " ab "; mkPost 11 1 "t" "abcd"]))
           PyFloat.binary64).
  apply PyFloat.binary64_monotone.
Defined.

Lemma known_posts_cons (i : Z) (ids : list Z) (posts : list Post) :
  i ∉ ids ->
  length (filter (fun post => user_id post ∈ i :: ids) posts)
  = (count_owned i posts + length (filter (fun post => user_id post ∈ ids) posts))%nat.
Proof.
  intros Hi. induction posts as [|p posts IH]; cbn [count_owned]; [reflexivity|].
  rewrite !filter_cons.
  destruct (Z.eqb_spec (user_id p) i) as [E|E].
  - rewrite decide_True by (rewrite E; left).
    rewrite decide_False by (rewrite E; exact Hi).
    cbn [length]. rewrite IH. lia.
  - destruct (decide (user_id p ∈ ids)) as [Hin|Hin].
    + rewrite decide_True by (now right). cbn [length]. rewrite IH. lia.
    + rewrite decide_False by (rewrite elem_of_cons; tauto). rewrite IH. lia.
Qed.

Lemma post_count_calculate_metrics (F : PyFloat.Arith) (user : User) (posts : list Post) :
  post_count (calculate_metrics F user posts) = Z.of_nat (count_owned (id user) posts).
Proof. rewrite calculate_metrics_fields. cbn [post_count]. now rewrite length_owned. Qed.

Lemma sum_post_counts (F : PyFloat.Arith) (users : list User) (posts : list Post) :
  NoDup (map id users) ->
  Py.sum (map post_count (calculate_all F users posts))
  = Z.of_nat (length (known_posts users posts)).
Proof.
  unfold known_posts, calculate_all.
  induction users as [|u users IH]; cbn [map]; intros Hnd.
  - rewrite (list_filter_iff _ (fun _ => False)).
    + now induction posts as [|p ps IHp]; [|rewrite filter_cons_False by tauto].
    + intros p. split; [intros H; inversion H|tauto].
  - apply NoDup_cons in Hnd as [Hu Hnd].
    rewrite sum_cons, IH by exact Hnd.
    rewrite known_posts_cons by exact Hu.
    rewrite post_count_calculate_metrics. lia.
Qed.

(** X8.  In [run_analysis], when every post that [process_posts] keeps
    holds values of the annotated types: after the aggregation loop and the
    sort, the ranked list holds exactly the users that [process_users] kept
    (same ids, as a permutation; same number).  When moreover these users have
    distinct ids, their post counts add up to the number of kept posts whose
    [user_id] is the id of one of them: every such post is counted once, a
    post of an unknown user is counted for nobody, so the total never exceeds
    the number of post records. *)
Theorem ranked_counts (F : PyFloat.Arith) (V : Pydantic)
    (users_data posts_data : list RawRecord) (posts : list Post) :
  mapM typed_post (fst (process_posts posts_data)) = Some posts ->
  let users := fst (process_users V users_data) in
  let sorted_users := ranked F users posts in
  map id sorted_users ≡ₚ map id users
  /\ length sorted_users = length users
  /\ (NoDup (map id users) ->
      Py.sum (map post_count sorted_users) = Z.of_nat (length (known_posts users posts))
      /\ (Py.sum (map post_count sorted_users) <= Z.of_nat (length posts_data))%Z).
Proof.
  intros Htyped users sorted_users. subst sorted_users. unfold ranked.
  pose proof (sorted_reverse_perm (fun x => int_or (post_count x) 0)
                (calculate_all F users posts)) as Hperm.
  fold (sort_users_by_post_count (calculate_all F users posts)) in Hperm.
  assert (Hids : map id (calculate_all F users posts) = map id users).
  { unfold calculate_all. rewrite map_map. apply map_ext. intros u.
    now rewrite calculate_metrics_fields. }
  split; [rewrite <- Hids; now apply Permutation_map|].
  split.
  { rewrite (Permutation_length Hperm). unfold calculate_all. apply length_map. }
  intros Hnd.
  assert (Hsum : Py.sum (map post_count (sort_users_by_post_count (calculate_all F users posts)))
                 = Z.of_nat (length (known_posts users posts))).
  { rewrite <- (sum_post_counts F users posts Hnd). apply sum_perm.
    now apply Permutation_map. }
  split; [exact Hsum|].
  rewrite Hsum. unfold known_posts.
  pose proof (length_filter (fun post => user_id post ∈ map id users) posts) as Hf.
  apply length_mapM in Htyped.
  rewrite process_posts_eq in Htyped. cbn [fst] in Htyped.
  assert (Hkept : (length (omap complete_post posts_data) <= length posts_data)%nat).
  { clear. induction posts_data as [|raw rest IH]; cbn; [lia|].
    destruct (complete_post raw); cbn; lia. }
  lia.
Qed.

Lemma ranked_counts_witness :
  let users_data :=
    [dict [("id", JInt 1); ("name", JStr "A"); ("username", JStr "A");
           ("email", JStr "x@y")];
     dict [("id", JInt 2); ("name", JStr "B"); ("username", JStr "B");
           ("email", JStr "x@y")]] in
  let sorted_users :=
    ranked PyFloat.binary64 (fst (process_users exact_types users_data))
      [mkPost 10 2 "t" "ab"; mkPost 11 9 "t" "ab"; mkPost 12 2 "t" "ab"] in
  map id sorted_users ≡ₚ map id (fst (process_users exact_types users_data))
  /\ Py.sum (map post_count sorted_users) = 2%Z.
Proof.
  cbv zeta.
  destruct (ranked_counts PyFloat.binary64 exact_types
              [dict [("id", JInt 1); ("name", JStr "A"); ("username", JStr "A");
                     ("email", JStr "x@y")];
               dict [("id", JInt 2); ("name", JStr "B"); ("username", JStr "B");
                     ("email", JStr "x@y")]]
              [dict [("id", JInt 10); ("userId", JInt 2); ("title", JStr "t");
                     ("body", JStr "ab")];
               dict [("id", JInt 11); ("userId", JInt 9); ("title", JStr "t");
                     ("body", JStr "ab")];
               dict [("id", JInt 12); ("userId", JInt 2); ("title", JStr "t");
                     ("body", JStr "ab")]]
              [mkPost 10 2 "t" "ab"; mkPost 11 9 "t" "ab"; mkPost 12 2 "t" "ab"])
    as (Hperm & _ & Hsum).
  - vm_compute. reflexivity.
  - split; [exact Hperm|].
    destruct Hsum as [Hsum _].
    + vm_compute. repeat constructor; rewrite ?elem_of_cons, ?elem_of_nil;
        intuition discriminate.
    + rewrite Hsum. vm_compute. reflexivity.
Defined.

End Main.
